(** * ep-engine vBucket core: a shallow embedding of [src/src/vbucket.cc]

    The development follows the source file top to bottom:

    - [VBucketFilter]: the sorted set of vBucket ids, its set operations
      ([filter_diff], [filter_intersection]) and its stream printer
      ([isRange], [operator_shl]);
    - [VBucket]: the per-partition state, the pending-operation and
      high-priority waiter sweeps ([fireAllOps], [notifyOnPersistence],
      [notifyAllPendingConnsFailed]), the adaptive checkpoint flush timeout,
      the bloom filter pair and the saturating dirty-queue counters.

    Unsigned 64-bit quantities ([size_t], [uint64_t], [hrtime_t]) are integers
    of [Z] whose wrap-around is written [wrap64]; vBucket ids are [uint16_t]
    values carried in [Z]. Calls on the engine ([notifyIOComplete],
    [storeEngineSpecific]) are recorded, in program order, in the list every
    operation returns next to the new state. *)

From stdpp Require Import gmap strings list sorting pretty.
From Equations Require Import Equations.

Local Open Scope Z_scope.

#[local] Set Warnings "-clear-no-such-hyp".

(** ** Machine integers *)

Definition wrap64 (z : Z) : Z := z mod 2 ^ 64.

Definition is_u64 (z : Z) : Prop := 0 ≤ z < 2 ^ 64.
Definition is_u32 (z : Z) : Prop := 0 ≤ z < 2 ^ 32.
Definition is_u16 (z : Z) : Prop := 0 ≤ z < 2 ^ 16.

(** ** VBucketFilter *)

Module VBucketFilter.

(** [std::set<uint16_t> acceptable]: the elements in iteration order, which
    for a [std::set] is strictly ascending. *)
Record t := VBucketFilter { acceptable : list Z }.

Definition sorted (l : list Z) : Prop := StronglySorted Z.lt l.

(** [std::set::insert]: walk to the first element not less than [x]; an equal
    element is left as it is. *)
Fixpoint set_insert (x : Z) (s : list Z) : list Z :=
  match s with
  | [] => [x]
  | y :: s' =>
      if Z.ltb x y then x :: y :: s'
      else if Z.ltb y x then y :: set_insert x s'
      else y :: s'
  end.

(** The constructor [VBucketFilter(const std::vector<uint16_t>&)]: the range
    constructor of [std::set], one [insert] per element of the vector. *)
Definition from_vector (a : list Z) : t :=
  VBucketFilter (foldl (λ s x, set_insert x s) [] a).

(** [std::set_symmetric_difference] on two ranges, writing to [tmp]. *)
Equations? set_symmetric_difference (first1 first2 : list Z) : list Z
  by wf (length first1 + length first2)%nat lt :=
  set_symmetric_difference [] first2 := first2;
  set_symmetric_difference first1 [] := first1;
  set_symmetric_difference (x :: r1) (y :: r2) with Z.ltb x y => {
    | true := x :: set_symmetric_difference r1 (y :: r2);
    | false with Z.ltb y x => {
      | true := y :: set_symmetric_difference (x :: r1) r2;
      | false := set_symmetric_difference r1 r2 } }.
Proof. all: simpl; lia. Qed.

(** [std::set_intersection] on two ranges, writing to [tmp]. *)
Equations? set_intersection (first1 first2 : list Z) : list Z
  by wf (length first1 + length first2)%nat lt :=
  set_intersection [] _ := [];
  set_intersection _ [] := [];
  set_intersection (x :: r1) (y :: r2) with Z.ltb x y => {
    | true := set_intersection r1 (y :: r2);
    | false with Z.ltb y x => {
      | true := set_intersection (x :: r1) r2;
      | false := x :: set_intersection r1 r2 } }.
Proof. all: simpl; lia. Qed.

Definition filter_diff (self other : t) : t :=
  let tmp := set_symmetric_difference (acceptable self) (acceptable other) in
  from_vector tmp.

Definition filter_intersection (self other : t) : t :=
  let tmp := set_intersection (acceptable self) (acceptable other) in
  from_vector tmp.

(** *** The printer *)

(** The [for] loop of [isRange]: [it] walks on while [val + length == *it].
    The sum is taken in [size_t], where a 16-bit [val] plus a count of
    elements does not wrap. *)
Fixpoint isRange_loop (val : Z) (it : list Z) (length : Z) : Z :=
  match it with
  | [] => length
  | x :: it' =>
      if Z.eqb (val + length) x then isRange_loop val it' (length + 1)
      else length
  end.

(** [isRange(it, end, length)], for an iterator [it] that points at [val] and
    has [rest] between it and [end]; the out-parameter [length] is returned
    with the result. *)
Definition isRange (val : Z) (rest : list Z) : bool * Z :=
  let length := isRange_loop val (val :: rest) 0 in
  let length := wrap64 (length - 1) in
  (Z.ltb 1 length, length).

(** The body of the [for] loop of [operator<<]: one round per position of
    [it], [out] being what the stream holds so far. *)
Equations? print_loop (needcomma : bool) (it : list Z) (out : string) : string
  by wf (length it) lt :=
  print_loop _ [] out := out;
  print_loop needcomma (x :: rest) out :=
    let out := if needcomma then out +:+ ", " else out in
    let '(range, len) := isRange x rest in
    if range then
      let last_it := drop (Z.to_nat len) (x :: rest) in
      let out := out +:+ "[" +:+ pretty x +:+ "," +:+
                 pretty (default 0 (head last_it)) +:+ "]" in
      print_loop true (drop 1 last_it) out
    else
      print_loop true rest (out +:+ pretty x).
Proof.
  subst last_it. rewrite !length_drop. simpl. lia.
Qed.

(** [operator<<(std::ostream&, const VBucketFilter&)], from an empty stream. *)
Definition operator_shl (filter : t) : string :=
  match acceptable filter with
  | [] => "{ empty }"
  | _ :: _ => print_loop false (acceptable filter) "{ " +:+ " }"
  end.

(** *** The printer as the specification words it

    The ids are cut into their maximal runs of consecutive values; a run of
    three or more is written [[lo,hi]], the ids of a shorter run one by one;
    the pieces are separated by commas inside braces. *)

(** The invariant of [std::set<uint16_t>]. *)
Definition valid (filter : t) : Prop :=
  sorted (acceptable filter) ∧ Forall is_u16 (acceptable filter).

Fixpoint runs (l : list Z) : list (list Z) :=
  match l with
  | [] => []
  | x :: tl =>
      match runs tl with
      | (y :: r) :: rs =>
          if Z.eqb (x + 1) y then (x :: y :: r) :: rs
          else [x] :: (y :: r) :: rs
      | _ => [[x]]
      end
  end.

(** [consecutive x r]: [r] is [x, x+1, x+2, ...]. *)
Fixpoint consecutive (x : Z) (r : list Z) : Prop :=
  match r with
  | [] => True
  | y :: r' => y = x ∧ consecutive (x + 1) r'
  end.

(** A cut of a list into maximal runs: every piece is a non-empty run of
    consecutive ids, and the id after a piece does not continue it. *)
Fixpoint maximal_runs (rs : list (list Z)) : Prop :=
  match rs with
  | [] => True
  | r :: rs' =>
      (∃ x r', r = x :: r' ∧ consecutive x r ∧
               head (concat rs') ≠ Some (x + Z.of_nat (length r))) ∧
      maximal_runs rs'
  end.

Definition render_run (r : list Z) : list string :=
  if bool_decide (3 ≤ length r)%nat
  then ["[" +:+ pretty (default 0 (head r)) +:+ "," +:+
        pretty (default 0 (last r)) +:+ "]"]
  else pretty <$> r.

Definition pieces (l : list Z) : list string :=
  concat (render_run <$> runs l).

(** Every piece preceded by a comma. *)
Fixpoint comma_each (toks : list string) : string :=
  match toks with
  | [] => ""
  | tok :: toks' => ", " +:+ tok +:+ comma_each toks'
  end.

Definition comma_separated (toks : list string) : string :=
  match toks with
  | [] => ""
  | tok :: toks' => tok +:+ comma_each toks'
  end.

Definition printed (filter : t) : string :=
  match acceptable filter with
  | [] => "{ empty }"
  | _ :: _ => "{ " +:+ comma_separated (pieces (acceptable filter)) +:+ " }"
  end.

End VBucketFilter.

(** ** VBucket *)

Module VBucket.

Inductive vbucket_state_t :=
| vbucket_state_active
| vbucket_state_replica
| vbucket_state_pending
| vbucket_state_dead.

Inductive ENGINE_ERROR_CODE :=
| ENGINE_SUCCESS
| ENGINE_KEY_ENOENT
| ENGINE_TMPFAIL
| ENGINE_NOT_MY_VBUCKET.

(** Modelled from the spec: [bfilter_status_t] (bloomfilter.h is not part of
    the sources); the data model gives a bloom filter a status in
    Disabled, Enabled, Compacting. *)
Inductive bfilter_status_t :=
| BFILTER_DISABLED
| BFILTER_COMPACTING
| BFILTER_ENABLED.

#[global] Instance vbucket_state_eq_dec : EqDecision vbucket_state_t.
Proof. solve_decision. Defined.
#[global] Instance engine_error_code_eq_dec : EqDecision ENGINE_ERROR_CODE.
Proof. solve_decision. Defined.
#[global] Instance bfilter_status_eq_dec : EqDecision bfilter_status_t.
Proof. solve_decision. Defined.

(** A cookie is a [const void*]: an address. *)
Definition DocKey := string.

(** The two calls the vBucket makes on [EventuallyPersistentEngine]. *)
Inductive EngineCall :=
| notifyIOComplete (cookie : Z) (status : ENGINE_ERROR_CODE)
| storeEngineSpecific (cookie : Z).

#[global] Instance engine_call_eq_dec : EqDecision EngineCall.
Proof. solve_decision. Defined.

Record HighPriorityVBEntry := {
  hp_cookie : Z;
  hp_id : Z;
  hp_isBySeqno : bool;
  hp_start : Z }.

#[global] Instance hp_entry_eq_dec : EqDecision HighPriorityVBEntry.
Proof. solve_decision. Defined.

Record VBucketBGFetchItem := {
  bg_cookie : Z;
  bg_metaDataOnly : bool }.

Record vb_bgfetch_item_ctx_t := {
  isMetaOnly : bool;
  bgfetched_list : list VBucketBGFetchItem }.

(** Modelled from the spec: [BloomFilter] (bloomfilter.h is not part of the
    sources): a bitset plus a status. *)
Record BloomFilter := {
  status : bfilter_status_t;
  bitArray : list bool }.

Definition getStatus (f : BloomFilter) : bfilter_status_t := status f.
Definition setStatus (to : bfilter_status_t) (f : BloomFilter) : BloomFilter :=
  {| status := to; bitArray := bitArray f |}.

(** Modelled from the spec: [CheckpointManager] (checkpoint.h is not part of
    the sources), reduced to the id of its open checkpoint with the getter
    and setter [setState] calls. *)
Record CheckpointManager := { openCheckpointId : Z }.

Definition getOpenCheckpointId (m : CheckpointManager) : Z :=
  openCheckpointId m.
Definition setOpenCheckpointId (id : Z) (m : CheckpointManager)
  : CheckpointManager := {| openCheckpointId := id |}.

(** [KVShard], as far as vbucket.cc touches it. *)
Record KVShard := { highPriorityCount : Z }.

(** The bounds [MIN_CHK_FLUSH_TIMEOUT] and [MAX_CHK_FLUSH_TIMEOUT] are macros
    of vbucket.h, which is not part of the sources: they are parameters. *)
Class ChkFlushBounds := {
  MIN_CHK_FLUSH_TIMEOUT : Z;
  MAX_CHK_FLUSH_TIMEOUT : Z }.

(** The platform clock: [gethrtime n] is what the [n]-th call of
    [gethrtime()] in the process returns, in nanoseconds. *)
Class Clock := { gethrtime : nat → Z }.

(** Process-wide state: the static [VBucket::chkFlushTimeout] and the number
    of clock readings taken so far. *)
Record Process := {
  chkFlushTimeout : Z;
  hrtime_calls : nat }.

(** The members of [VBucket] that the operations below read or write.
    [pendingOps] is the [std::vector] front to back, [hpChks] the
    [std::list], [pendingBGFetches] the [std::unordered_map] in the order its
    iterator visits it; [shard] is [None] for a null pointer. *)
Record t := {
  state : vbucket_state_t;
  checkpointManager : CheckpointManager;
  pendingOps : list Z;
  pendingOpsStart : Z;
  hpChks : list HighPriorityVBEntry;
  numHpChks : Z;
  shard : option KVShard;
  pendingBGFetches : list (DocKey * vb_bgfetch_item_ctx_t);
  bFilter : option BloomFilter;
  tempFilter : option BloomFilter;
  dirtyQueueMem : Z;
  dirtyQueueAge : Z;
  dirtyQueuePendingWrites : Z }.

Definition set_state (v : vbucket_state_t) (vb : t) : t :=
  {| state := v; checkpointManager := checkpointManager vb; pendingOps :=
     pendingOps vb; pendingOpsStart := pendingOpsStart vb; hpChks :=
     hpChks vb; numHpChks := numHpChks vb; shard := shard vb;
     pendingBGFetches := pendingBGFetches vb; bFilter := bFilter vb;
     tempFilter := tempFilter vb; dirtyQueueMem := dirtyQueueMem vb;
     dirtyQueueAge := dirtyQueueAge vb; dirtyQueuePendingWrites :=
     dirtyQueuePendingWrites vb |}.

Definition set_checkpointManager (v : CheckpointManager) (vb : t) : t :=
  {| state := state vb; checkpointManager := v; pendingOps := pendingOps
     vb; pendingOpsStart := pendingOpsStart vb; hpChks := hpChks vb;
     numHpChks := numHpChks vb; shard := shard vb; pendingBGFetches :=
     pendingBGFetches vb; bFilter := bFilter vb; tempFilter := tempFilter
     vb; dirtyQueueMem := dirtyQueueMem vb; dirtyQueueAge := dirtyQueueAge
     vb; dirtyQueuePendingWrites := dirtyQueuePendingWrites vb |}.

Definition set_pendingOps (v : list Z) (vb : t) : t :=
  {| state := state vb; checkpointManager := checkpointManager vb;
     pendingOps := v; pendingOpsStart := pendingOpsStart vb; hpChks :=
     hpChks vb; numHpChks := numHpChks vb; shard := shard vb;
     pendingBGFetches := pendingBGFetches vb; bFilter := bFilter vb;
     tempFilter := tempFilter vb; dirtyQueueMem := dirtyQueueMem vb;
     dirtyQueueAge := dirtyQueueAge vb; dirtyQueuePendingWrites :=
     dirtyQueuePendingWrites vb |}.

Definition set_pendingOpsStart (v : Z) (vb : t) : t :=
  {| state := state vb; checkpointManager := checkpointManager vb;
     pendingOps := pendingOps vb; pendingOpsStart := v; hpChks := hpChks
     vb; numHpChks := numHpChks vb; shard := shard vb; pendingBGFetches :=
     pendingBGFetches vb; bFilter := bFilter vb; tempFilter := tempFilter
     vb; dirtyQueueMem := dirtyQueueMem vb; dirtyQueueAge := dirtyQueueAge
     vb; dirtyQueuePendingWrites := dirtyQueuePendingWrites vb |}.

Definition set_hpChks (v : list HighPriorityVBEntry) (vb : t) : t :=
  {| state := state vb; checkpointManager := checkpointManager vb;
     pendingOps := pendingOps vb; pendingOpsStart := pendingOpsStart vb;
     hpChks := v; numHpChks := numHpChks vb; shard := shard vb;
     pendingBGFetches := pendingBGFetches vb; bFilter := bFilter vb;
     tempFilter := tempFilter vb; dirtyQueueMem := dirtyQueueMem vb;
     dirtyQueueAge := dirtyQueueAge vb; dirtyQueuePendingWrites :=
     dirtyQueuePendingWrites vb |}.

Definition set_numHpChks (v : Z) (vb : t) : t :=
  {| state := state vb; checkpointManager := checkpointManager vb;
     pendingOps := pendingOps vb; pendingOpsStart := pendingOpsStart vb;
     hpChks := hpChks vb; numHpChks := v; shard := shard vb;
     pendingBGFetches := pendingBGFetches vb; bFilter := bFilter vb;
     tempFilter := tempFilter vb; dirtyQueueMem := dirtyQueueMem vb;
     dirtyQueueAge := dirtyQueueAge vb; dirtyQueuePendingWrites :=
     dirtyQueuePendingWrites vb |}.

Definition set_shard (v : option KVShard) (vb : t) : t :=
  {| state := state vb; checkpointManager := checkpointManager vb;
     pendingOps := pendingOps vb; pendingOpsStart := pendingOpsStart vb;
     hpChks := hpChks vb; numHpChks := numHpChks vb; shard := v;
     pendingBGFetches := pendingBGFetches vb; bFilter := bFilter vb;
     tempFilter := tempFilter vb; dirtyQueueMem := dirtyQueueMem vb;
     dirtyQueueAge := dirtyQueueAge vb; dirtyQueuePendingWrites :=
     dirtyQueuePendingWrites vb |}.

Definition set_pendingBGFetches (v : list (DocKey * vb_bgfetch_item_ctx_t)) (vb : t) : t :=
  {| state := state vb; checkpointManager := checkpointManager vb;
     pendingOps := pendingOps vb; pendingOpsStart := pendingOpsStart vb;
     hpChks := hpChks vb; numHpChks := numHpChks vb; shard := shard vb;
     pendingBGFetches := v; bFilter := bFilter vb; tempFilter :=
     tempFilter vb; dirtyQueueMem := dirtyQueueMem vb; dirtyQueueAge :=
     dirtyQueueAge vb; dirtyQueuePendingWrites := dirtyQueuePendingWrites
     vb |}.

Definition set_bFilter (v : option BloomFilter) (vb : t) : t :=
  {| state := state vb; checkpointManager := checkpointManager vb;
     pendingOps := pendingOps vb; pendingOpsStart := pendingOpsStart vb;
     hpChks := hpChks vb; numHpChks := numHpChks vb; shard := shard vb;
     pendingBGFetches := pendingBGFetches vb; bFilter := v; tempFilter :=
     tempFilter vb; dirtyQueueMem := dirtyQueueMem vb; dirtyQueueAge :=
     dirtyQueueAge vb; dirtyQueuePendingWrites := dirtyQueuePendingWrites
     vb |}.

Definition set_tempFilter (v : option BloomFilter) (vb : t) : t :=
  {| state := state vb; checkpointManager := checkpointManager vb;
     pendingOps := pendingOps vb; pendingOpsStart := pendingOpsStart vb;
     hpChks := hpChks vb; numHpChks := numHpChks vb; shard := shard vb;
     pendingBGFetches := pendingBGFetches vb; bFilter := bFilter vb;
     tempFilter := v; dirtyQueueMem := dirtyQueueMem vb; dirtyQueueAge :=
     dirtyQueueAge vb; dirtyQueuePendingWrites := dirtyQueuePendingWrites
     vb |}.

Definition set_dirtyQueueMem (v : Z) (vb : t) : t :=
  {| state := state vb; checkpointManager := checkpointManager vb;
     pendingOps := pendingOps vb; pendingOpsStart := pendingOpsStart vb;
     hpChks := hpChks vb; numHpChks := numHpChks vb; shard := shard vb;
     pendingBGFetches := pendingBGFetches vb; bFilter := bFilter vb;
     tempFilter := tempFilter vb; dirtyQueueMem := v; dirtyQueueAge :=
     dirtyQueueAge vb; dirtyQueuePendingWrites := dirtyQueuePendingWrites
     vb |}.

Definition set_dirtyQueueAge (v : Z) (vb : t) : t :=
  {| state := state vb; checkpointManager := checkpointManager vb;
     pendingOps := pendingOps vb; pendingOpsStart := pendingOpsStart vb;
     hpChks := hpChks vb; numHpChks := numHpChks vb; shard := shard vb;
     pendingBGFetches := pendingBGFetches vb; bFilter := bFilter vb;
     tempFilter := tempFilter vb; dirtyQueueMem := dirtyQueueMem vb;
     dirtyQueueAge := v; dirtyQueuePendingWrites :=
     dirtyQueuePendingWrites vb |}.

Definition set_dirtyQueuePendingWrites (v : Z) (vb : t) : t :=
  {| state := state vb; checkpointManager := checkpointManager vb;
     pendingOps := pendingOps vb; pendingOpsStart := pendingOpsStart vb;
     hpChks := hpChks vb; numHpChks := numHpChks vb; shard := shard vb;
     pendingBGFetches := pendingBGFetches vb; bFilter := bFilter vb;
     tempFilter := tempFilter vb; dirtyQueueMem := dirtyQueueMem vb;
     dirtyQueueAge := dirtyQueueAge vb; dirtyQueuePendingWrites := v |}.


(** *** The saturating counter decrements

    [decrDirtyQueueMem], [decrDirtyQueueAge] and [decrDirtyQueuePendingWrites]
    run the same [do { ... } while (!compare_exchange_strong(...))] loop.
    [others] lists what other threads do to the counter between the [load] and
    the compare-exchange of successive rounds: [Some v] stores [v], [None]
    leaves it alone; once the list is used up nobody interferes. *)

(** [compare_exchange_strong(expected, desired)] on a counter holding [cur]:
    whether it succeeded, and what the counter holds afterwards. *)
Definition compare_exchange_strong (cur expected desired : Z) : bool * Z :=
  if Z.eqb cur expected then (true, desired) else (false, cur).

Fixpoint decr_loop (others : list (option Z)) (cur decrementBy : Z) : Z :=
  let oldVal := cur in
  let newVal :=
    if Z.ltb oldVal decrementBy then 0 else wrap64 (oldVal - decrementBy) in
  match others with
  | [] => (compare_exchange_strong cur oldVal newVal).2
  | other :: others' =>
      let cur := default cur other in
      let '(exchanged, cur) := compare_exchange_strong cur oldVal newVal in
      if exchanged then cur else decr_loop others' cur decrementBy
  end.

Definition decrDirtyQueueMem_among (others : list (option Z))
    (decrementBy : Z) (vb : t) : t :=
  set_dirtyQueueMem (decr_loop others (dirtyQueueMem vb) decrementBy) vb.

Definition decrDirtyQueueAge_among (others : list (option Z))
    (decrementBy : Z) (vb : t) : t :=
  set_dirtyQueueAge (decr_loop others (dirtyQueueAge vb) decrementBy) vb.

Definition decrDirtyQueuePendingWrites_among (others : list (option Z))
    (decrementBy : Z) (vb : t) : t :=
  set_dirtyQueuePendingWrites
    (decr_loop others (dirtyQueuePendingWrites vb) decrementBy) vb.

(** The calls as one thread sees them. *)
Definition decrDirtyQueueMem := decrDirtyQueueMem_among [].
Definition decrDirtyQueueAge := decrDirtyQueueAge_among [].
Definition decrDirtyQueuePendingWrites := decrDirtyQueuePendingWrites_among [].

(** *** The bloom filter pair *)

Definition isTempFilterAvailable (vb : t) : bool :=
  match tempFilter vb with
  | Some temp =>
      bool_decide (getStatus temp = BFILTER_COMPACTING) ||
      bool_decide (getStatus temp = BFILTER_ENABLED)
  | None => false
  end.

Definition swapFilter (vb : t) : t :=
  let vb :=
    match bFilter vb, tempFilter vb with
    | Some _, Some _ => set_bFilter None vb
    | _, _ => vb
    end in
  match tempFilter vb with
  | Some temp =>
      if bool_decide (getStatus temp = BFILTER_COMPACTING) ||
         bool_decide (getStatus temp = BFILTER_ENABLED)
      then
        let vb := set_bFilter (Some temp) vb in
        let vb := set_tempFilter None vb in
        set_bFilter (setStatus BFILTER_ENABLED <$> bFilter vb) vb
      else set_tempFilter None vb
  | None => vb
  end.

Definition clearFilter (vb : t) : t :=
  let vb := match bFilter vb with Some _ => set_bFilter None vb | None => vb end in
  match tempFilter vb with Some _ => set_tempFilter None vb | None => vb end.

Definition setFilterStatus (to : bfilter_status_t) (vb : t) : t :=
  let vb := set_bFilter (setStatus to <$> bFilter vb) vb in
  set_tempFilter (setStatus to <$> tempFilter vb) vb.

Section BloomProbe.

(** [BloomFilter::maybeKeyExists] lives in bloomfilter.cc, which is not part
    of the sources: whatever it answers is a parameter. *)
Variable maybeKeyExists : BloomFilter → DocKey → bool.

Definition maybeKeyExistsInFilter (key : DocKey) (vb : t) : bool :=
  match bFilter vb with
  | Some f => maybeKeyExists f key
  | None => true
  end.

End BloomProbe.

(** *** State, waiters and the engine *)

(** [setState] is handed no engine: it makes no call on one. *)
Definition setState (to : vbucket_state_t) (vb : t) : t * list EngineCall :=
  let cm := checkpointManager vb in
  let cm :=
    if bool_decide (to = vbucket_state_active) &&
       Z.ltb (getOpenCheckpointId cm) 2
    then setOpenCheckpointId 2 cm else cm in
  (set_state to (set_checkpointManager cm vb), []).

(** [queueBGFetchItem]: [pendingBGFetches[key]] finds the context of [key]
    or makes an empty one, and [fetch] is pushed at the back of its list.
    The call on the [BgFetcher] is outside the vBucket. *)
Definition queue_fetch (fetch : VBucketBGFetchItem)
    (bgfetch_itm_ctx : vb_bgfetch_item_ctx_t) : vb_bgfetch_item_ctx_t :=
  let meta :=
    match bgfetched_list bgfetch_itm_ctx with
    | [] => true
    | _ :: _ => isMetaOnly bgfetch_itm_ctx
    end in
  {| isMetaOnly := if negb (bg_metaDataOnly fetch) then false else meta;
     bgfetched_list := bgfetched_list bgfetch_itm_ctx ++ [fetch] |}.

Fixpoint queue_at (key : DocKey) (fetch : VBucketBGFetchItem)
    (fetches : list (DocKey * vb_bgfetch_item_ctx_t))
  : list (DocKey * vb_bgfetch_item_ctx_t) :=
  match fetches with
  | [] =>
      [(key, queue_fetch fetch {| isMetaOnly := false; bgfetched_list := [] |})]
  | bgf :: rest =>
      if bool_decide (bgf.1 = key) then (bgf.1, queue_fetch fetch bgf.2) :: rest
      else bgf :: queue_at key fetch rest
  end.

Definition queueBGFetchItem (key : DocKey) (fetch : VBucketBGFetchItem)
    (vb : t) : t * Z :=
  let vb := set_pendingBGFetches (queue_at key fetch (pendingBGFetches vb)) vb in
  (vb, Z.of_nat (length (pendingBGFetches vb))).

(** [toNotify] is a [std::map<const void*, ENGINE_ERROR_CODE>]; its iterator
    visits the cookies in ascending order. *)
Definition by_cookie (x y : Z * ENGINE_ERROR_CODE) : Prop := x.1 ≤ y.1.

#[global] Instance by_cookie_dec : RelDecision by_cookie.
Proof. intros x y. unfold by_cookie. apply _. Defined.

(** The body of the loop [for (; itr != toNotify.end(); ++itr)]. *)
Definition announce (itr : Z * ENGINE_ERROR_CODE) : EngineCall :=
  notifyIOComplete itr.1 itr.2.

Definition notify_all (toNotify : gmap Z ENGINE_ERROR_CODE) : list EngineCall :=
  announce <$> merge_sort by_cookie (map_to_list toNotify).

Section Operations.

Context `{!ChkFlushBounds} `{!Clock}.

(** [std::atomic<size_t> VBucket::chkFlushTimeout(MIN_CHK_FLUSH_TIMEOUT)]. *)
Definition process_start : Process :=
  {| chkFlushTimeout := MIN_CHK_FLUSH_TIMEOUT; hrtime_calls := 0 |}.

Definition read_clock (p : Process) : Z * Process :=
  (gethrtime (hrtime_calls p),
   {| chkFlushTimeout := chkFlushTimeout p;
      hrtime_calls := S (hrtime_calls p) |}).

Definition adjustCheckpointFlushTimeout (wall_time : Z) (p : Process)
  : Process :=
  let middle := (MIN_CHK_FLUSH_TIMEOUT + MAX_CHK_FLUSH_TIMEOUT) / 2 in
  let to :=
    if Z.leb wall_time MIN_CHK_FLUSH_TIMEOUT then MIN_CHK_FLUSH_TIMEOUT
    else if Z.leb wall_time middle then middle
    else MAX_CHK_FLUSH_TIMEOUT in
  {| chkFlushTimeout := to; hrtime_calls := hrtime_calls p |}.

Definition getCheckpointFlushTimeout (p : Process) : Z := chkFlushTimeout p.

(** The [while (!pendingOps.empty())] loop of [fireAllOps]: [stack] is
    [pendingOps] read from its back. *)
Fixpoint fire_pending (code : ENGINE_ERROR_CODE) (stack : list Z)
  : list EngineCall :=
  match stack with
  | [] => []
  | pendingOperation :: below =>
      notifyIOComplete pendingOperation code :: fire_pending code below
  end.

(** [fireAllOps(engine, code)]. *)
Definition fireAllOps_code (code : ENGINE_ERROR_CODE) (vb : t) (p : Process)
  : t * Process * list EngineCall :=
  if Z.ltb 0 (pendingOpsStart vb) then
    let '(now, p) := read_clock p in
    let stack := reverse (pendingOps vb) in
    let vb := set_pendingOpsStart 0 vb in
    let vb := set_pendingOps [] vb in
    (vb, p, fire_pending code stack)
  else (vb, p, []).

(** [fireAllOps(engine)]. *)
Definition fireAllOps (vb : t) (p : Process) : t * Process * list EngineCall :=
  match state vb with
  | vbucket_state_active => fireAllOps_code ENGINE_SUCCESS vb p
  | vbucket_state_pending => (vb, p, [])
  | _ => fireAllOps_code ENGINE_NOT_MY_VBUCKET vb p
  end.

Definition incr_highPriorityCount (s : KVShard) : KVShard :=
  {| highPriorityCount := wrap64 (highPriorityCount s + 1) |}.
Definition decr_highPriorityCount (s : KVShard) : KVShard :=
  {| highPriorityCount := wrap64 (highPriorityCount s - 1) |}.

(** Modelled from the spec: the constructor of [HighPriorityVBEntry]
    (vbucket.h is not part of the sources) stamps the entry with the time it
    was started at. *)
Definition addHighPriorityVBEntry (id cookie : Z) (isBySeqno : bool)
    (vb : t) (p : Process) : t * Process :=
  let vb := set_shard (incr_highPriorityCount <$> shard vb) vb in
  let '(now, p) := read_clock p in
  let entry := {| hp_cookie := cookie; hp_id := id;
                  hp_isBySeqno := isBySeqno; hp_start := now |} in
  let vb := set_hpChks (hpChks vb ++ [entry]) vb in
  (set_numHpChks (Z.of_nat (length (hpChks vb))) vb, p).

(** What a walk over [hpChks] carries along. *)
Record Sweep := {
  toNotify : gmap Z ENGINE_ERROR_CODE;
  calls : list EngineCall;
  sw_shard : option KVShard;
  proc : Process }.

(** A walk over a [std::list] that may [erase] the entry it stands on:
    [visit] tells whether it erased; the entries left are returned. *)
Fixpoint walk (visit : HighPriorityVBEntry → Sweep → bool * Sweep)
    (entries : list HighPriorityVBEntry) (sw : Sweep)
  : list HighPriorityVBEntry * Sweep :=
  match entries with
  | [] => ([], sw)
  | entry :: rest =>
      let '(erased, sw) := visit entry sw in
      let '(kept, sw) := walk visit rest sw in
      (if erased then kept else entry :: kept, sw)
  end.

(** One round of the [while] loop of [notifyOnPersistence]. *)
Definition persistence_visit (idNum : Z) (isBySeqno : bool)
    (entry : HighPriorityVBEntry) (sw : Sweep) : bool * Sweep :=
  if negb (eqb isBySeqno (hp_isBySeqno entry)) then (false, sw)
  else
    let '(now, p) := read_clock (proc sw) in
    let wall_time := wrap64 (now - hp_start entry) in
    let spent := wall_time / 1000000000 in
    if Z.leb (hp_id entry) idNum then
      (true,
       {| toNotify := <[hp_cookie entry := ENGINE_SUCCESS]> (toNotify sw);
          calls := calls sw;
          sw_shard := decr_highPriorityCount <$> sw_shard sw;
          proc := adjustCheckpointFlushTimeout (wall_time / 1000000000) p |})
    else if Z.ltb (getCheckpointFlushTimeout p) spent then
      (true,
       {| toNotify := <[hp_cookie entry := ENGINE_TMPFAIL]> (toNotify sw);
          calls := calls sw ++ [storeEngineSpecific (hp_cookie entry)];
          sw_shard := decr_highPriorityCount <$> sw_shard sw;
          proc := adjustCheckpointFlushTimeout spent p |})
    else
      (false,
       {| toNotify := toNotify sw; calls := calls sw;
          sw_shard := sw_shard sw; proc := p |}).

Definition notifyOnPersistence (idNum : Z) (isBySeqno : bool)
    (vb : t) (p : Process) : t * Process * list EngineCall :=
  let '(kept, sw) :=
    walk (persistence_visit idNum isBySeqno) (hpChks vb)
         {| toNotify := ∅; calls := []; sw_shard := shard vb; proc := p |} in
  let vb := set_hpChks kept (set_shard (sw_shard sw) vb) in
  let vb := set_numHpChks (Z.of_nat (length (hpChks vb))) vb in
  (vb, proc sw, calls sw ++ notify_all (toNotify sw)).

(** One round of the first loop of [notifyAllPendingConnsFailed]. *)
Definition failed_visit (entry : HighPriorityVBEntry) (sw : Sweep)
  : bool * Sweep :=
  (true,
   {| toNotify := <[hp_cookie entry := ENGINE_TMPFAIL]> (toNotify sw);
      calls := calls sw ++ [storeEngineSpecific (hp_cookie entry)];
      sw_shard := decr_highPriorityCount <$> sw_shard sw;
      proc := proc sw |}).

(** The inner loop over [bg_itm_ctx.bgfetched_list]. *)
Fixpoint failed_bgitems (bgitems : list VBucketBGFetchItem) (sw : Sweep)
  : Sweep :=
  match bgitems with
  | [] => sw
  | bgitem :: rest =>
      failed_bgitems rest
        {| toNotify := <[bg_cookie bgitem := ENGINE_NOT_MY_VBUCKET]> (toNotify sw);
           calls := calls sw ++ [storeEngineSpecific (bg_cookie bgitem)];
           sw_shard := sw_shard sw;
           proc := proc sw |}
  end.

(** The loop over [pendingBGFetches]. *)
Fixpoint failed_bgfetches (bgfs : list (DocKey * vb_bgfetch_item_ctx_t))
    (sw : Sweep) : Sweep :=
  match bgfs with
  | [] => sw
  | bgf :: rest => failed_bgfetches rest (failed_bgitems (bgfetched_list bgf.2) sw)
  end.

Definition notifyAllPendingConnsFailed (vb : t) (p : Process)
  : t * Process * list EngineCall :=
  let '(kept, sw) :=
    walk failed_visit (hpChks vb)
         {| toNotify := ∅; calls := []; sw_shard := shard vb; proc := p |} in
  let vb := set_hpChks kept (set_shard (sw_shard sw) vb) in
  let sw := failed_bgfetches (pendingBGFetches vb) sw in
  let vb := set_pendingBGFetches [] vb in
  let notified := calls sw ++ notify_all (toNotify sw) in
  let '(vb, p, fired) := fireAllOps vb (proc sw) in
  (vb, p, notified ++ fired).

End Operations.

(** *** What a cookie was told *)

(** The statuses [notifyIOComplete] delivered to [cookie], oldest first. *)
Fixpoint notifications (cookie : Z) (trace : list EngineCall)
  : list ENGINE_ERROR_CODE :=
  match trace with
  | [] => []
  | notifyIOComplete c status :: trace' =>
      if bool_decide (c = cookie) then status :: notifications cookie trace'
      else notifications cookie trace'
  | storeEngineSpecific _ :: trace' => notifications cookie trace'
  end.

(** The cookies parked in the background-fetch map. *)
Definition bg_cookies (vb : t) : list Z :=
  bg_cookie <$> concat ((λ bgf, bgfetched_list bgf.2) <$> pendingBGFetches vb).

Definition hp_cookies (vb : t) : list Z := hp_cookie <$> hpChks vb.

(** No cookie is parked in two of the three containers. *)
Definition parked_apart (vb : t) : Prop :=
  (∀ c, c ∈ hp_cookies vb → c ∉ bg_cookies vb) ∧
  (∀ c, c ∈ pendingOps vb → (c ∉ hp_cookies vb) ∧ (c ∉ bg_cookies vb)).

(** *** Four statements as the specification words them *)

Section Stated.

Context `{!ChkFlushBounds} `{!Clock}.

(** "The value of chkFlushTimeout after the call is greater than or equal to
    its value before the call." *)
Definition timeout_not_decreased (wall_time : Z) (p : Process) : Prop :=
  chkFlushTimeout p ≤
  chkFlushTimeout (adjustCheckpointFlushTimeout wall_time p).

(** "Every waiter registered BySeqno with targetId ≤ S has been notified
    exactly once with Success and removed from the list; waiters registered
    ByCheckpointId are not affected." *)
Definition persistence_resolves_waiters (persisted : Z) (vb : t) (p : Process)
  : Prop :=
  let after := notifyOnPersistence persisted true vb p in
  (∀ w, w ∈ hpChks vb → hp_isBySeqno w = true → hp_id w ≤ persisted →
        notifications (hp_cookie w) after.2 = [ENGINE_SUCCESS] ∧
        (w ∉ hpChks after.1.1)) ∧
  (∀ w, w ∈ hpChks vb → hp_isBySeqno w = false →
        w ∈ hpChks after.1.1 ∧ notifications (hp_cookie w) after.2 = []).

(** "After setState(X), X ≠ Active, on a vBucket that was Active, every
    pending op receives exactly one NotMyVBucket and every high-priority
    waiter exactly one TempFail." *)
Definition setState_notifies (to : vbucket_state_t) (vb : t) : Prop :=
  state vb = vbucket_state_active → to ≠ vbucket_state_active →
  let trace := (setState to vb).2 in
  (∀ c, c ∈ pendingOps vb →
        notifications c trace = [ENGINE_NOT_MY_VBUCKET]) ∧
  (∀ w, w ∈ hpChks vb →
        notifications (hp_cookie w) trace = [ENGINE_TMPFAIL]).

(** "Every cookie in the high-priority list is notified with TempFail and
    every cookie in the background-fetch map with NotMyVBucket, exactly
    once per call, and afterwards both containers are empty." *)
Definition failed_sweep_notifies (vb : t) (p : Process) : Prop :=
  let after := notifyAllPendingConnsFailed vb p in
  (∀ c, c ∈ hp_cookies vb → notifications c after.2 = [ENGINE_TMPFAIL]) ∧
  (∀ c, c ∈ bg_cookies vb →
        notifications c after.2 = [ENGINE_NOT_MY_VBUCKET]) ∧
  hpChks after.1.1 = [] ∧ pendingBGFetches after.1.1 = [].

End Stated.

(** *** Concrete runs *)

Module Run.

(** Bounds of ten and thirty seconds. *)
Definition bounds : ChkFlushBounds :=
  {| MIN_CHK_FLUSH_TIMEOUT := 10; MAX_CHK_FLUSH_TIMEOUT := 30 |}.

(** A clock that shows 0 at its first two readings and 100 s from then on. *)
Definition clock : Clock :=
  {| gethrtime n := if (n <? 2)%nat then 0 else 100000000000 |}.

Definition fresh : t :=
  {| state := vbucket_state_active;
     checkpointManager := {| openCheckpointId := 0 |};
     pendingOps := []; pendingOpsStart := 0;
     hpChks := []; numHpChks := 0; shard := Some {| highPriorityCount := 0 |};
     pendingBGFetches := [];
     bFilter := None; tempFilter := None;
     dirtyQueueMem := 0; dirtyQueueAge := 0; dirtyQueuePendingWrites := 0 |}.

Definition start : Process := @process_start bounds.

(** Cookie 77 waits for seqno 1 and then, again, for seqno 100. *)
Definition twice_waiting : t * Process :=
  let '(vb, p) := @addHighPriorityVBEntry clock 1 77 true fresh start in
  @addHighPriorityVBEntry clock 100 77 true vb p.

(** Cookies 7 and 8 wait for seqno 1 and for checkpoint 9. *)
Definition two_waiters : t * Process :=
  let '(vb, p) := @addHighPriorityVBEntry clock 1 7 true fresh start in
  @addHighPriorityVBEntry clock 9 8 false vb p.

(** Cookie 77 waits for seqno 10 and is parked on a fetch of key "k". *)
Definition waiting_and_fetching : t * Process :=
  let '(vb, p) := @addHighPriorityVBEntry clock 10 77 true fresh start in
  ((queueBGFetchItem "k" {| bg_cookie := 77; bg_metaDataOnly := false |} vb).1,
   p).

(** Cookie 7 waits for seqno 10, cookie 8 is parked on a fetch of "k". *)
Definition waiter_and_fetcher : t * Process :=
  let '(vb, p) := @addHighPriorityVBEntry clock 10 7 true fresh start in
  ((queueBGFetchItem "k" {| bg_cookie := 8; bg_metaDataOnly := false |} vb).1,
   p).

(** An active vBucket with pending op 5 and cookie 7 waiting for seqno 10. *)
Definition with_pending_op : t * Process :=
  let '(vb, p) := @addHighPriorityVBEntry clock 10 7 true fresh start in
  (set_pendingOpsStart 1 (set_pendingOps [5] vb), p).

Definition with_filters (main temp : option BloomFilter) : t :=
  set_tempFilter temp (set_bFilter main fresh).

End Run.

End VBucket.

(** ** The rest of vbucket.cc *)

Module VBucketOps.
Import VBucket.

(** *** Queue statistics and the item counts *)

(** The counters of [VBucket] that only the statistics paths touch. *)
Record QueueStats := {
  opsCreate : Z;
  opsUpdate : Z;
  opsDelete : Z;
  opsReject : Z;
  dirtyQueueSize : Z;
  dirtyQueueFill : Z;
  dirtyQueueDrain : Z;
  metaDataDisk : Z }.

(** [sizeof(Item)], [sizeof(ItemMetaData)] and [VBucket::decrDirtyQueueSize]
    come from headers that are not part of the sources: parameters.
    [decrDirtyQueueSize d v] is what a counter holding [v] holds after
    [decrDirtyQueueSize(d)]. *)
Class Layout := {
  sizeof_Item : Z;
  sizeof_ItemMetaData : Z;
  decrDirtyQueueSize : Z → Z → Z }.

Section Statistics.

Context `{!Layout}.

(** [doStatsForQueueing(qi, itemBytes)], [queuedTime] being
    [qi.getQueuedTime()]. *)
Definition doStatsForQueueing (queuedTime itemBytes : Z)
    (vb : t) (qs : QueueStats) : t * QueueStats :=
  let qs :=
    {| opsCreate := opsCreate qs; opsUpdate := opsUpdate qs;
       opsDelete := opsDelete qs; opsReject := opsReject qs;
       dirtyQueueSize := wrap64 (dirtyQueueSize qs + 1);
       dirtyQueueFill := wrap64 (dirtyQueueFill qs + 1);
       dirtyQueueDrain := dirtyQueueDrain qs;
       metaDataDisk := metaDataDisk qs |} in
  let vb := set_dirtyQueueMem (wrap64 (dirtyQueueMem vb + sizeof_Item)) vb in
  let vb := set_dirtyQueueAge (wrap64 (dirtyQueueAge vb + queuedTime)) vb in
  let vb :=
    set_dirtyQueuePendingWrites
      (wrap64 (dirtyQueuePendingWrites vb + itemBytes)) vb in
  (vb, qs).

(** [doStatsForFlushing(qi, itemBytes)]. *)
Definition doStatsForFlushing (queuedTime itemBytes : Z)
    (vb : t) (qs : QueueStats) : t * QueueStats :=
  let qs :=
    {| opsCreate := opsCreate qs; opsUpdate := opsUpdate qs;
       opsDelete := opsDelete qs; opsReject := opsReject qs;
       dirtyQueueSize := decrDirtyQueueSize 1 (dirtyQueueSize qs);
       dirtyQueueFill := dirtyQueueFill qs;
       dirtyQueueDrain := wrap64 (dirtyQueueDrain qs + 1);
       metaDataDisk := metaDataDisk qs |} in
  let vb := decrDirtyQueueMem sizeof_Item vb in
  let vb := decrDirtyQueueAge queuedTime vb in
  let vb := decrDirtyQueuePendingWrites itemBytes vb in
  (vb, qs).

Definition set_metaDataDisk (v : Z) (qs : QueueStats) : QueueStats :=
  {| opsCreate := opsCreate qs; opsUpdate := opsUpdate qs;
     opsDelete := opsDelete qs; opsReject := opsReject qs;
     dirtyQueueSize := dirtyQueueSize qs;
     dirtyQueueFill := dirtyQueueFill qs;
     dirtyQueueDrain := dirtyQueueDrain qs;
     metaDataDisk := v |}.

(** [incrMetaDataDisk(qi)] and [decrMetaDataDisk(qi)], [keySize] being
    [qi.getKey().size()]: a [fetch_add] and a [fetch_sub]. *)
Definition incrMetaDataDisk (keySize : Z) (qs : QueueStats) : QueueStats :=
  set_metaDataDisk
    (wrap64 (metaDataDisk qs + wrap64 (keySize + sizeof_ItemMetaData))) qs.

Definition decrMetaDataDisk (keySize : Z) (qs : QueueStats) : QueueStats :=
  set_metaDataDisk
    (wrap64 (metaDataDisk qs - wrap64 (keySize + sizeof_ItemMetaData))) qs.

End Statistics.

(** [resetStats], without its calls on [EPStats] and on the clock. *)
Definition resetStats (vb : t) (qs : QueueStats) : t * QueueStats :=
  let vb := set_dirtyQueueMem 0 vb in
  let vb := set_dirtyQueueAge 0 vb in
  let vb := set_dirtyQueuePendingWrites 0 vb in
  (vb,
   {| opsCreate := 0; opsUpdate := 0; opsDelete := 0; opsReject := 0;
      dirtyQueueSize := 0; dirtyQueueFill := 0; dirtyQueueDrain := 0;
      metaDataDisk := metaDataDisk qs |}).

Inductive item_eviction_policy_t := VALUE_ONLY | FULL_EVICTION.

#[global] Instance item_eviction_policy_eq_dec : EqDecision item_eviction_policy_t.
Proof. solve_decision. Defined.

(** [HashTable], as far as [getNumItems] and [getNumNonResidentItems] read
    it: three counters of type [size_t]. *)
Record HashTable := {
  getNumItems_ht : Z;
  getNumInMemoryItems : Z;
  getNumInMemoryNonResItems : Z }.

Definition getNumItems (policy : item_eviction_policy_t) (ht : HashTable) : Z :=
  match policy with
  | VALUE_ONLY => getNumInMemoryItems ht
  | FULL_EVICTION => getNumItems_ht ht
  end.

Definition getNumNonResidentItems (policy : item_eviction_policy_t)
    (ht : HashTable) : Z :=
  match policy with
  | VALUE_ONLY => getNumInMemoryNonResItems ht
  | FULL_EVICTION =>
      let num_items := getNumItems_ht ht in
      let num_res_items :=
        wrap64 (getNumInMemoryItems ht - getNumInMemoryNonResItems ht) in
      if Z.ltb num_res_items num_items then wrap64 (num_items - num_res_items)
      else 0
  end.

(** *** Background fetches and the waiter count *)

(** [getBGFetchItems]: the map is swapped out and handed to the caller. *)
Definition getBGFetchItems (vb : t)
  : list (DocKey * vb_bgfetch_item_ctx_t) * t :=
  (pendingBGFetches vb, set_pendingBGFetches [] vb).

Definition getHighPriorityChkSize (vb : t) : Z := numHpChks vb.

(** *** The bloom filter life cycle *)

(** The constructor of [BloomFilter], [addKey] and the getters live in
    bloomfilter.cc, which is not part of the sources: parameters.
    [probability] stands for [double]. *)
Class BloomFilterOps := {
  probability : Type;
  BloomFilter_new : Z → probability → bfilter_status_t → BloomFilter;
  addKey : DocKey → BloomFilter → BloomFilter;
  getStatusString : BloomFilter → string;
  getFilterSize_bf : BloomFilter → Z;
  getNumOfKeysInFilter_bf : BloomFilter → Z }.

Section Filters.

Context `{!BloomFilterOps}.

Definition createFilter (key_count : Z) (p : probability) (vb : t) : t :=
  match bFilter vb, tempFilter vb with
  | None, None =>
      set_bFilter (Some (BloomFilter_new key_count p BFILTER_ENABLED)) vb
  | _, _ => vb
  end.

Definition initTempFilter (key_count : Z) (p : probability) (vb : t) : t :=
  let vb := set_tempFilter
              (Some (BloomFilter_new key_count p BFILTER_COMPACTING)) vb in
  match bFilter vb with
  | Some _ => set_bFilter (setStatus BFILTER_COMPACTING <$> bFilter vb) vb
  | None => vb
  end.

Definition addToFilter (key : DocKey) (vb : t) : t :=
  let vb :=
    match bFilter vb with
    | Some f => set_bFilter (Some (addKey key f)) vb
    | None => vb
    end in
  match tempFilter vb with
  | Some f => set_tempFilter (Some (addKey key f)) vb
  | None => vb
  end.

Definition addToTempFilter (key : DocKey) (vb : t) : t :=
  match tempFilter vb with
  | Some f => set_tempFilter (Some (addKey key f)) vb
  | None => vb
  end.

Definition getFilterStatusString (vb : t) : string :=
  match bFilter vb, tempFilter vb with
  | Some f, _ => getStatusString f
  | None, Some f => getStatusString f
  | None, None => "DOESN'T EXIST"
  end.

Definition getFilterSize (vb : t) : Z :=
  match bFilter vb with
  | Some f => getFilterSize_bf f
  | None => 0
  end.

Definition getNumOfKeysInFilter (vb : t) : Z :=
  match bFilter vb with
  | Some f => getNumOfKeysInFilter_bf f
  | None => 0
  end.

(** A write while a compaction runs: through the mutation path
    ([addToFilter]) or through the compaction scan ([addToTempFilter]). *)
Definition add_during_compaction (vb : t) (write : bool * DocKey) : t :=
  if write.1 then addToFilter write.2 vb else addToTempFilter write.2 vb.

End Filters.

(** *** Reads: [fetchValidValue] and [completeBGFetchForSingleItem]

    [StoredValue] and [HashTable] are not part of the sources. A stored
    value is any type with the observers and the in-place updates that
    vbucket.cc calls; [isExpired] is taken at the [ep_real_time()] of the
    call. *)
Class StoredValueOps := {
  StoredValue : Type;
  Item : Type;
  isDeleted : StoredValue → bool;
  isTempItem : StoredValue → bool;
  isTempInitialItem : StoredValue → bool;
  isResident : StoredValue → bool;
  isExpired : StoredValue → bool;
  unlocked_softDelete : StoredValue → StoredValue;
  unlocked_restoreMeta :
    Item → ENGINE_ERROR_CODE → StoredValue → bool * StoredValue;
  unlocked_restoreValue : Item → StoredValue → StoredValue;
  setNonExistent : StoredValue → StoredValue }.

(** What [fetchValidValue] leaves behind: the pointer it returns ([None] for
    [NULL]), the stored value the hash table now holds for the key, and
    whether the expiry was counted and queued ([incExpirationStat],
    [unlocked_softDelete], [queueDirty]). *)
Record Fetched `{!StoredValueOps} := {
  returned : option StoredValue;
  stored : option StoredValue;
  expiry_queued : bool }.

Inductive raised (A : Type) :=
| Returns (a : A)
| Throws_logic_error.
Arguments Returns {A} a.
Arguments Throws_logic_error {A}.

Section Reads.

Context `{!StoredValueOps}.

(** [fetchValidValue(lh, key, bucket_num, wantsDeleted, trackReference,
    queueExpired)] on a vBucket in state [st]; [lh] tells whether the hash
    bucket lock is held and [found] is what [ht.unlocked_find] returns. *)
Definition fetchValidValue (lh : bool) (st : vbucket_state_t)
    (found : option StoredValue) (wantsDeleted queueExpired : bool)
  : raised Fetched :=
  if negb lh then Throws_logic_error
  else
    match found with
    | Some v =>
        if negb (isDeleted v) && negb (isTempItem v) then
          if isExpired v then
            if negb (bool_decide (st = vbucket_state_active)) then
              Returns {| returned := if wantsDeleted then Some v else None;
                         stored := Some v; expiry_queued := false |}
            else if queueExpired &&
                    bool_decide (st = vbucket_state_active) then
              let v := unlocked_softDelete v in
              Returns {| returned := if wantsDeleted then Some v else None;
                         stored := Some v; expiry_queued := true |}
            else
              Returns {| returned := if wantsDeleted then Some v else None;
                         stored := Some v; expiry_queued := false |}
          else Returns {| returned := Some v; stored := Some v;
                          expiry_queued := false |}
        else Returns {| returned := Some v; stored := Some v;
                        expiry_queued := false |}
    | None => Returns {| returned := None; stored := None;
                         expiry_queued := false |}
    end.

(** The locked scope of [completeBGFetchForSingleItem]: [v] is what
    [fetchValidValue] returned, [status] and [fetchedValue] are
    [fetched_item.value.getStatus()] and [getValue()]. The status for the
    caller comes back with the stored value as updated. *)
Definition completeBGFetchForSingleItem (eviction : item_eviction_policy_t)
    (metaDataOnly : bool) (status : ENGINE_ERROR_CODE) (fetchedValue : Item)
    (v : option StoredValue)
  : raised (ENGINE_ERROR_CODE * option StoredValue) :=
  if metaDataOnly then
    match v with
    | Some sv =>
        let '(restored, sv) := unlocked_restoreMeta fetchedValue status sv in
        if restored || bool_decide (status = ENGINE_KEY_ENOENT)
        then Returns (ENGINE_SUCCESS, Some sv)
        else Returns (status, Some sv)
    | None =>
        if bool_decide (status = ENGINE_KEY_ENOENT)
        then Returns (ENGINE_SUCCESS, None)
        else Returns (status, None)
    end
  else
    match v with
    | Some sv =>
        if isResident sv then Returns (ENGINE_SUCCESS, Some sv)
        else
          let restore :=
            match eviction with
            | VALUE_ONLY => negb (isResident sv)
            | FULL_EVICTION => isTempInitialItem sv || negb (isResident sv)
            end in
          if restore then
            if bool_decide (status = ENGINE_SUCCESS) then
              let sv := unlocked_restoreValue fetchedValue sv in
              if negb (isResident sv) then Throws_logic_error
              else Returns (status, Some sv)
            else if bool_decide (status = ENGINE_KEY_ENOENT) then
              let sv := setNonExistent sv in
              if bool_decide (eviction = FULL_EVICTION)
              then Returns (ENGINE_SUCCESS, Some sv)
              else Returns (status, Some sv)
            else Returns (ENGINE_TMPFAIL, Some sv)
          else Returns (status, Some sv)
    | None => Returns (status, None)
    end.

End Reads.

(** *** Well-formed background-fetch maps *)

(** Every parked key has at least one fetch, and its context is meta-only
    exactly when all its fetches are. *)
Definition meta_flags_right (fetches : list (DocKey * vb_bgfetch_item_ctx_t))
  : Prop :=
  Forall (λ bgf, bgfetched_list bgf.2 ≠ [] ∧
                 isMetaOnly bgf.2
                 = forallb bg_metaDataOnly (bgfetched_list bgf.2)) fetches.

(** *** Concrete parameters *)

Module Sample.

Definition layout : Layout :=
  {| sizeof_Item := 120; sizeof_ItemMetaData := 24;
     decrDirtyQueueSize d v := if Z.ltb v d then 0 else v - d |}.

(** A filter that keeps one bit per key added, newest first. *)
Definition bloom : BloomFilterOps :=
  {| probability := unit;
     BloomFilter_new _ _ s := {| status := s; bitArray := [] |};
     addKey _ f := {| status := status f; bitArray := true :: bitArray f |};
     getStatusString f :=
       match status f with
       | BFILTER_DISABLED => "DISABLED"
       | BFILTER_COMPACTING => "COMPACTING"
       | BFILTER_ENABLED => "ENABLED"
       end;
     getFilterSize_bf f := Z.of_nat (length (bitArray f));
     getNumOfKeysInFilter_bf f := Z.of_nat (length (bitArray f)) |}.

Record Flags := {
  deleted : bool;
  temp : bool;
  tempInitial : bool;
  resident : bool;
  expired : bool }.

Definition stored_values : StoredValueOps :=
  {| StoredValue := Flags;
     Item := unit;
     isDeleted := deleted;
     isTempItem := temp;
     isTempInitialItem := tempInitial;
     isResident := resident;
     isExpired := expired;
     unlocked_softDelete v :=
       {| deleted := true; temp := temp v; tempInitial := tempInitial v;
          resident := false; expired := expired v |};
     unlocked_restoreMeta _ _ v := (tempInitial v, v);
     unlocked_restoreValue _ v :=
       {| deleted := deleted v; temp := false; tempInitial := false;
          resident := true; expired := expired v |};
     setNonExistent v :=
       {| deleted := deleted v; temp := true; tempInitial := false;
          resident := resident v; expired := expired v |} |}.


Definition evicted : Flags :=
  {| deleted := false; temp := false; tempInitial := false;
     resident := false; expired := false |}.

Definition no_stats : QueueStats :=
  {| opsCreate := 0; opsUpdate := 0; opsDelete := 0; opsReject := 0;
     dirtyQueueSize := 0; dirtyQueueFill := 0; dirtyQueueDrain := 0;
     metaDataDisk := 0 |}.

End Sample.

End VBucketOps.

(** * Properties *)

Lemma wrap64_small z : is_u64 z → wrap64 z = z.
Proof. intros Hz. apply Z.mod_small. exact Hz. Qed.

Module VBucketFilterFacts.
Import VBucketFilter.

(** *** Set operations *)

Lemma sorted_inv x l : sorted (x :: l) → sorted l ∧ Forall (Z.lt x) l.
Proof. intros Hs. apply StronglySorted_inv in Hs. exact Hs. Qed.

Lemma sorted_head_not_in_tail x l : sorted (x :: l) → x ∉ l.
Proof.
  intros [_ Hall]%sorted_inv Hin.
  rewrite Forall_forall in Hall. specialize (Hall _ Hin). lia.
Qed.

Lemma sorted_below_not_in x y l : sorted (y :: l) → x < y → x ∉ y :: l.
Proof.
  intros [_ Hall]%sorted_inv Hxy Hin.
  rewrite Forall_forall in Hall.
  apply elem_of_cons in Hin as [->|Hin]; [lia|].
  specialize (Hall _ Hin). lia.
Qed.

Lemma elem_of_set_insert x y s : y ∈ set_insert x s ↔ y = x ∨ y ∈ s.
Proof.
  induction s as [|z s IH]; simpl.
  - set_solver.
  - destruct (Z.ltb_spec x z); [set_solver|].
    destruct (Z.ltb_spec z x).
    + rewrite !elem_of_cons, IH. tauto.
    + assert (x = z) by lia. set_solver.
Qed.

Lemma elem_of_foldl_set_insert x a acc :
  x ∈ foldl (λ s y, set_insert y s) acc a ↔ x ∈ acc ∨ x ∈ a.
Proof.
  revert acc. induction a as [|y a IH]; intros acc; simpl.
  - set_solver.
  - rewrite IH, elem_of_set_insert, elem_of_cons. tauto.
Qed.

Lemma elem_of_from_vector x a : x ∈ acceptable (from_vector a) ↔ x ∈ a.
Proof.
  unfold from_vector. simpl. rewrite elem_of_foldl_set_insert. set_solver.
Qed.

Lemma set_insert_sorted x s : sorted s → sorted (set_insert x s).
Proof.
  induction s as [|y s IH]; simpl; intros Hs.
  - repeat constructor.
  - destruct (sorted_inv _ _ Hs) as [Hs' Hall].
    destruct (Z.ltb_spec x y).
    + constructor; [exact Hs|]. constructor; [done|].
      eapply Forall_impl; [exact Hall|]. intros; simpl in *; lia.
    + destruct (Z.ltb_spec y x); [|exact Hs].
      constructor; [exact (IH Hs')|].
      apply Forall_forall. intros z Hz.
      apply elem_of_set_insert in Hz as [->|Hz]; [done|].
      rewrite Forall_forall in Hall. auto.
Qed.

(** The constructor always builds a well-formed [std::set]. *)
Lemma from_vector_sorted a : sorted (acceptable (from_vector a)).
Proof.
  unfold from_vector. simpl.
  assert (Hgen : ∀ acc, sorted acc →
            sorted (foldl (λ s y, set_insert y s) acc a)).
  { induction a as [|y a IH]; intros acc Hacc; simpl; [done|].
    apply IH, set_insert_sorted, Hacc. }
  apply Hgen. constructor.
Qed.

Ltac by_comparisons :=
  repeat match goal with
         | H : Z.ltb _ _ = _ |- _ => rewrite H; simpl
         end.

Lemma set_symmetric_difference_comm a b :
  set_symmetric_difference a b = set_symmetric_difference b a.
Proof.
  funelim (set_symmetric_difference a b); simp set_symmetric_difference.
  - by destruct first2.
  - done.
  - assert (Z.ltb y x = false) by lia. by_comparisons. by f_equal.
  - by_comparisons. by f_equal.
  - by_comparisons. done.
Qed.

Lemma elem_of_set_symmetric_difference a b x :
  sorted a → sorted b →
  x ∈ set_symmetric_difference a b ↔ (x ∈ a ∧ (x ∉ b)) ∨ ((x ∉ a) ∧ x ∈ b).
Proof.
  funelim (set_symmetric_difference a b); simp set_symmetric_difference;
    intros Ha Hb.
  - set_solver.
  - set_solver.
  - apply Z.ltb_lt in Heq.
    pose proof (sorted_head_not_in_tail _ _ Ha).
    pose proof (sorted_below_not_in _ _ _ Hb Heq).
    destruct (sorted_inv _ _ Ha) as [Ha' _].
    rewrite elem_of_cons, (H x0 Ha' Hb). set_solver.
  - apply Z.ltb_lt in Heq.
    pose proof (sorted_head_not_in_tail _ _ Hb).
    pose proof (sorted_below_not_in _ _ _ Ha Heq).
    destruct (sorted_inv _ _ Hb) as [Hb' _].
    rewrite elem_of_cons, (H x0 Ha Hb'). set_solver.
  - apply Z.ltb_ge in Heq0. apply Z.ltb_ge in Heq.
    assert (x = y) as -> by lia.
    pose proof (sorted_head_not_in_tail _ _ Ha).
    pose proof (sorted_head_not_in_tail _ _ Hb).
    destruct (sorted_inv _ _ Ha) as [Ha' _].
    destruct (sorted_inv _ _ Hb) as [Hb' _].
    rewrite (H x0 Ha' Hb'). set_solver.
Qed.

Lemma elem_of_set_intersection a b x :
  sorted a → sorted b →
  x ∈ set_intersection a b ↔ x ∈ a ∧ x ∈ b.
Proof.
  funelim (set_intersection a b); simp set_intersection; intros Ha Hb.
  - set_solver.
  - set_solver.
  - apply Z.ltb_lt in Heq.
    pose proof (sorted_below_not_in _ _ _ Hb Heq).
    destruct (sorted_inv _ _ Ha) as [Ha' _].
    rewrite (H x0 Ha' Hb). set_solver.
  - apply Z.ltb_lt in Heq.
    pose proof (sorted_below_not_in _ _ _ Ha Heq).
    destruct (sorted_inv _ _ Hb) as [Hb' _].
    rewrite (H x0 Ha Hb'). set_solver.
  - apply Z.ltb_ge in Heq0. apply Z.ltb_ge in Heq.
    assert (x = y) as -> by lia.
    pose proof (sorted_head_not_in_tail _ _ Ha).
    pose proof (sorted_head_not_in_tail _ _ Hb).
    destruct (sorted_inv _ _ Ha) as [Ha' _].
    destruct (sorted_inv _ _ Hb) as [Hb' _].
    rewrite elem_of_cons, (H x0 Ha' Hb'). set_solver.
Qed.



(** C7. [filter_diff] is the symmetric difference (an id is in the result
    exactly when it is in one of the two filters and not in the other), so
    it is commutative; [filter_intersection] holds exactly the ids present
    in both filters. *)
Theorem filter_diff_symmetric_difference (a b : t) :
  sorted (acceptable a) → sorted (acceptable b) →
  (∀ x, x ∈ acceptable (filter_diff a b) ↔
        (x ∈ acceptable a ∧ (x ∉ acceptable b)) ∨
        ((x ∉ acceptable a) ∧ x ∈ acceptable b)) ∧
  filter_diff a b = filter_diff b a ∧
  (∀ x, x ∈ acceptable (filter_intersection a b) ↔
        x ∈ acceptable a ∧ x ∈ acceptable b).
Proof.
  intros Ha Hb. unfold filter_diff, filter_intersection. cbv zeta.
  split; [|split].
  - intros x. rewrite elem_of_from_vector.
    by apply elem_of_set_symmetric_difference.
  - by rewrite set_symmetric_difference_comm.
  - intros x. rewrite elem_of_from_vector.
    by apply elem_of_set_intersection.
Qed.

Lemma filter_diff_symmetric_difference_witness :
  acceptable (filter_diff (VBucketFilter [1; 2; 3]) (VBucketFilter [2; 4]))
    = [1; 3; 4] ∧
  filter_diff (VBucketFilter [1; 2; 3]) (VBucketFilter [2; 4]) =
  filter_diff (VBucketFilter [2; 4]) (VBucketFilter [1; 2; 3]) ∧
  (3 ∈ acceptable (filter_intersection (VBucketFilter [1; 2; 3])
                                        (VBucketFilter [2; 3; 4]))).
Proof.
  assert (Ha : sorted (acceptable (VBucketFilter [1; 2; 3]))).
  { unfold sorted. simpl. repeat constructor; lia. }
  assert (Hb : sorted (acceptable (VBucketFilter [2; 4]))).
  { unfold sorted. simpl. repeat constructor; lia. }
  assert (Hc : sorted (acceptable (VBucketFilter [2; 3; 4]))).
  { unfold sorted. simpl. repeat constructor; lia. }
  split; [reflexivity|]. split.
  - exact (proj1 (proj2 (filter_diff_symmetric_difference _ _ Ha Hb))).
  - apply (proj2 (proj2 (filter_diff_symmetric_difference _ _ Ha Hc)) 3).
    simpl. split; apply list_elem_of_In; simpl; tauto.
Defined.

(** *** The printer *)

Lemma string_app_assoc (s1 s2 s3 : string) :
  (s1 +:+ s2) +:+ s3 = s1 +:+ s2 +:+ s3.
Proof.
  induction s1 as [|c s1 IH]; [done|].
  change (String c ((s1 +:+ s2) +:+ s3) = String c (s1 +:+ s2 +:+ s3)).
  by f_equal.
Qed.

Lemma string_app_empty_r (s : string) : s +:+ "" = s.
Proof.
  induction s as [|c s IH]; [done|].
  change (String c (s +:+ "") = String c s). by f_equal.
Qed.

Lemma consecutive_last x r :
  consecutive x r → r ≠ [] → last r = Some (x + Z.of_nat (length r) - 1).
Proof.
  revert x. induction r as [|y r IH]; intros x; [done|].
  intros [-> Hr] _. destruct r as [|z r].
  - simpl. f_equal. lia.
  - rewrite last_cons_cons, (IH _ Hr) by done. f_equal. simpl length. lia.
Qed.

(** [runs] cuts a list into maximal runs, losing nothing. *)
Lemma runs_spec l : concat (runs l) = l ∧ maximal_runs (runs l).
Proof.
  induction l as [|x tl [Hcat Hmax]]; [done|].
  simpl. destruct (runs tl) as [|[|y r] rs] eqn:Hruns.
  - simpl in Hcat. subst tl. simpl. split; [done|].
    split; [|done]. exists x, []. simpl. done.
  - destruct Hmax as [(? & ? & ? & _) _]. done.
  - simpl in Hcat. destruct Hmax as [(y' & r' & Hy & Hcons & Hbreak) Hmax].
    injection Hy as <- <-.
    destruct (Z.eqb_spec (x + 1) y) as [Hxy|Hxy].
    + simpl. split; [by rewrite Hcat|]. split; [|done].
      exists x, (y :: r). split; [done|]. split.
      * simpl. simpl in Hcons. split; [done|]. split; [lia|].
        rewrite Hxy. tauto.
      * intros Hh. apply Hbreak. rewrite Hh. f_equal.
        simpl length. lia.
    + simpl. split; [by rewrite Hcat|]. split.
      * exists x, []. simpl. split; [done|]. split; [done|].
        intros [=]. lia.
      * split; [|done]. exists y, r. done.
Qed.

Lemma isRange_loop_run r l val k :
  consecutive (val + k) r →
  head l ≠ Some (val + k + Z.of_nat (length r)) →
  isRange_loop val (r ++ l) k = k + Z.of_nat (length r).
Proof.
  revert k. induction r as [|y r IH]; intros k Hr Hbreak; simpl in *.
  - destruct l as [|z l]; simpl; [lia|].
    destruct (Z.eqb_spec (val + k) z) as [<-|]; [|lia].
    exfalso. apply Hbreak. simpl. f_equal. lia.
  - destruct Hr as [-> Hr]. rewrite Z.eqb_refl.
    rewrite IH; [lia| |].
    + by replace (val + (k + 1)) with (val + k + 1) by lia.
    + intros Hh. apply Hbreak. rewrite Hh. f_equal. lia.
Qed.

Lemma sorted_bounded_length l a b :
  sorted l → Forall (λ z, a ≤ z ≤ b) l → a ≤ b + 1 →
  Z.of_nat (length l) ≤ b - a + 1.
Proof.
  revert a. induction l as [|x l IH]; intros a Hs Hall Hab; simpl; [lia|].
  destruct (sorted_inv _ _ Hs) as [Hs' Hlt].
  apply Forall_cons in Hall as [Hx Hall].
  assert (Z.of_nat (length l) ≤ b - (x + 1) + 1); [|lia].
  apply IH; [done| |lia].
  rewrite Forall_forall in *. intros z Hz.
  specialize (Hall z Hz). specialize (Hlt z Hz). simpl in *. lia.
Qed.

Lemma valid_length filter :
  valid filter → Z.of_nat (length (acceptable filter)) < 2 ^ 64.
Proof.
  intros [Hs Hall].
  assert (Z.of_nat (length (acceptable filter)) ≤ 65535 - 0 + 1); [|lia].
  apply sorted_bounded_length; [done| |lia].
  eapply Forall_impl; [exact Hall|]. unfold is_u16. simpl. lia.
Qed.

Lemma isRange_run x r' l :
  consecutive x (x :: r') →
  head l ≠ Some (x + Z.of_nat (length (x :: r'))) →
  Z.of_nat (length (x :: r')) < 2 ^ 64 →
  isRange x (r' ++ l) =
  (bool_decide (3 ≤ length (x :: r'))%nat, Z.of_nat (length r')).
Proof.
  intros Hr Hbreak Hlen. unfold isRange.
  change (x :: r' ++ l) with ((x :: r') ++ l).
  rewrite isRange_loop_run; [| by rewrite Z.add_0_r | by rewrite Z.add_0_r].
  rewrite wrap64_small by (unfold is_u64; simpl length in *; lia).
  simpl length. f_equal; [|lia].
  case_bool_decide; [apply Z.ltb_lt|apply Z.ltb_ge]; lia.
Qed.

Lemma print_loop_runs rs needcomma out :
  maximal_runs rs →
  Z.of_nat (length (concat rs)) < 2 ^ 64 →
  print_loop needcomma (concat rs) out =
  out +:+ (if needcomma then comma_each else comma_separated)
            (concat (render_run <$> rs)).
Proof.
  revert needcomma out.
  induction rs as [|r rs IH]; intros needcomma out Hmax Hlen.
  - simpl. simp print_loop. destruct needcomma; simpl.
    all: by rewrite string_app_empty_r.
  - destruct Hmax as [(x & r' & -> & Hcons & Hbreak) Hmax].
    simpl in Hlen. rewrite length_app in Hlen.
    simpl concat.
    change ((x :: r') ++ concat rs) with (x :: r' ++ concat rs).
    simp print_loop.
    rewrite isRange_run; [|done|done|simpl length; lia].
    assert (Hrest : Z.of_nat (length (concat rs)) < 2 ^ 64) by lia.
    unfold render_run at 1.
    case_bool_decide as Hlong.
    + cbv zeta. rewrite Nat2Z.id.
      change (x :: r' ++ concat rs) with ((x :: r') ++ concat rs).
      rewrite drop_drop.
      replace (length r' + 1)%nat with (length (x :: r')) by (simpl; lia).
      rewrite drop_app_length.
      rewrite IH by done.
      assert (Hhead : head (drop (length r') ((x :: r') ++ concat rs))
                      = last (x :: r')).
      { destruct (last_Some (x :: r') (x + Z.of_nat (length (x :: r')) - 1))
          as [[pre Hpre] _]; [by apply consecutive_last|].
        rewrite Hpre at 1.
        assert (length r' = length pre) as ->.
        { apply (f_equal length) in Hpre. rewrite length_app in Hpre.
          simpl in Hpre. lia. }
        rewrite <- app_assoc, drop_app_length. simpl.
        by rewrite Hpre, last_snoc. }
      rewrite Hhead. simpl head.
      destruct needcomma; simpl concat; cbn [comma_each comma_separated app];
        by rewrite !string_app_assoc.
    + destruct r' as [|y r'].
      * simpl app. rewrite IH by done.
        destruct needcomma; simpl; by rewrite !string_app_assoc.
      * destruct r' as [|z r']; [|simpl in Hlong; lia].
        destruct Hcons as (_ & -> & _).
        simpl app. simp print_loop.
        pose proof (isRange_run (x + 1) [] (concat rs)) as Hsnd.
        simpl app in Hsnd. rewrite Hsnd; clear Hsnd.
        -- rewrite bool_decide_false by (simpl; lia).
           rewrite IH by done.
           destruct needcomma; simpl; by rewrite !string_app_assoc.
        -- simpl. done.
        -- intros Hh. apply Hbreak. rewrite Hh. f_equal. simpl length. lia.
        -- simpl length in *. lia.
Qed.

(** C6. The stream printer writes [{ empty }] for the empty filter and
    otherwise the ids in ascending order between [{ ] and [ }], separated
    by commas, every maximal run of three or more consecutive ids collapsed
    to [[lo,hi]] and the ids of shorter runs written one by one. *)
Theorem printer_collapses_runs (filter : t) :
  valid filter → operator_shl filter = printed filter.
Proof.
  intros Hvalid. pose proof (valid_length _ Hvalid) as Hlen.
  unfold operator_shl, printed, pieces.
  destruct (runs_spec (acceptable filter)) as [Hcat Hmax].
  destruct (acceptable filter) as [|x l] eqn:Hacc; [done|].
  rewrite <- Hcat at 1.
  rewrite print_loop_runs; [|done|by rewrite Hcat].
  by rewrite string_app_assoc.
Qed.

Lemma printer_collapses_runs_witness :
  valid (VBucketFilter [1; 2; 3; 5; 6; 8]) ∧
  operator_shl (VBucketFilter [1; 2; 3; 5; 6; 8]) = "{ [1,3], 5, 6, 8 }".
Proof.
  assert (Hv : valid (VBucketFilter [1; 2; 3; 5; 6; 8])).
  { split; simpl.
    - unfold sorted. repeat constructor; lia.
    - repeat constructor; unfold is_u16; lia. }
  split; [exact Hv|].
  rewrite (printer_collapses_runs _ Hv). reflexivity.
Defined.

End VBucketFilterFacts.

Module VBucketFacts.
Import VBucket.

(** *** The adaptive checkpoint flush timeout *)

(** C1, as stated, fails: from the maximum, a short wall time takes the
    timeout back to the minimum. *)
Lemma timeout_decreased :
  let p := @adjustCheckpointFlushTimeout Run.bounds 100 Run.start in
  chkFlushTimeout p = 30 ∧
  chkFlushTimeout (@adjustCheckpointFlushTimeout Run.bounds 5 p) = 10 ∧
  ¬ @timeout_not_decreased Run.bounds 5 p.
Proof.
  split; [reflexivity|]. split; [reflexivity|].
  unfold timeout_not_decreased. vm_compute. intros H. apply H. reflexivity.
Qed.

(** C1, amended. The call overwrites the timeout with the band of the wall
    time alone: the minimum up to the minimum, the middle up to the middle,
    the maximum above. With ordered bounds the new value lies between them
    and is not below a wall time under the maximum; it is not below the old
    value when that was at most the minimum, or when the wall time exceeds
    an old value that is at most the maximum. *)
Theorem timeout_follows_wall_time `{!ChkFlushBounds} (wall_time : Z)
    (p : Process) :
  MIN_CHK_FLUSH_TIMEOUT ≤ MAX_CHK_FLUSH_TIMEOUT →
  let middle := (MIN_CHK_FLUSH_TIMEOUT + MAX_CHK_FLUSH_TIMEOUT) / 2 in
  let before := chkFlushTimeout p in
  let after := chkFlushTimeout (adjustCheckpointFlushTimeout wall_time p) in
  (wall_time ≤ MIN_CHK_FLUSH_TIMEOUT → after = MIN_CHK_FLUSH_TIMEOUT) ∧
  (MIN_CHK_FLUSH_TIMEOUT < wall_time ≤ middle → after = middle) ∧
  (middle < wall_time → after = MAX_CHK_FLUSH_TIMEOUT) ∧
  MIN_CHK_FLUSH_TIMEOUT ≤ after ≤ MAX_CHK_FLUSH_TIMEOUT ∧
  (wall_time ≤ MAX_CHK_FLUSH_TIMEOUT → wall_time ≤ after) ∧
  (before ≤ MIN_CHK_FLUSH_TIMEOUT → before ≤ after) ∧
  (before < wall_time → before ≤ MAX_CHK_FLUSH_TIMEOUT → before ≤ after).
Proof.
  intros Hbounds middle before after.
  assert (Hmid : MIN_CHK_FLUSH_TIMEOUT ≤ middle ≤ MAX_CHK_FLUSH_TIMEOUT).
  { subst middle. split.
    - apply Z.div_le_lower_bound; lia.
    - apply Z.div_le_upper_bound; lia. }
  subst before after. unfold adjustCheckpointFlushTimeout. cbn [chkFlushTimeout].
  fold middle.
  destruct (Z.leb_spec wall_time MIN_CHK_FLUSH_TIMEOUT);
    [|destruct (Z.leb_spec wall_time middle)]; repeat split; intros; lia.
Qed.

Lemma timeout_follows_wall_time_witness :
  chkFlushTimeout (@adjustCheckpointFlushTimeout Run.bounds 20 Run.start) = 20.
Proof.
  assert (Hb : @MIN_CHK_FLUSH_TIMEOUT Run.bounds ≤ @MAX_CHK_FLUSH_TIMEOUT Run.bounds)
    by (simpl; lia).
  destruct (@timeout_follows_wall_time Run.bounds 20 Run.start Hb)
    as (_ & Hmiddle & _).
  rewrite Hmiddle; [reflexivity|].
  vm_compute. split; [reflexivity|discriminate].
Defined.

(** *** State changes and the open checkpoint *)

(** C4. A [setState] to active leaves the open checkpoint id at 2 or more;
    a [setState] to any other state leaves it as it was. *)
Theorem setState_open_checkpoint (to : vbucket_state_t) (vb : t) :
  let after := (setState to vb).1 in
  (to = vbucket_state_active →
   2 ≤ getOpenCheckpointId (checkpointManager after)) ∧
  (to ≠ vbucket_state_active →
   getOpenCheckpointId (checkpointManager after) =
   getOpenCheckpointId (checkpointManager vb)).
Proof.
  unfold setState, getOpenCheckpointId, setOpenCheckpointId.
  cbn [fst set_state set_checkpointManager checkpointManager]. split.
  - intros ->. rewrite bool_decide_true by done. cbn [andb].
    destruct (Z.ltb_spec (openCheckpointId (checkpointManager vb)) 2);
      cbn [openCheckpointId]; lia.
  - intros Hto. by rewrite bool_decide_false.
Qed.

Lemma setState_open_checkpoint_witness :
  getOpenCheckpointId
    (checkpointManager (setState vbucket_state_active Run.fresh).1) = 2 ∧
  getOpenCheckpointId
    (checkpointManager (setState vbucket_state_dead Run.fresh).1) = 0.
Proof.
  split.
  - apply Z.le_antisymm; [vm_compute; discriminate|].
    exact (proj1 (setState_open_checkpoint vbucket_state_active Run.fresh)
             eq_refl).
  - rewrite (proj2 (setState_open_checkpoint vbucket_state_dead Run.fresh));
      [reflexivity|discriminate].
Defined.

(** *** The saturating counters *)

Lemma compare_exchange_same cur desired :
  compare_exchange_strong cur cur desired = (true, desired).
Proof. unfold compare_exchange_strong. by rewrite Z.eqb_refl. Qed.

(** One round of the loop, when the exchange goes through. *)
Lemma saturating_round oldVal decrementBy :
  is_u64 oldVal → is_u64 decrementBy →
  (if Z.ltb oldVal decrementBy then 0 else wrap64 (oldVal - decrementBy)) =
  (if bool_decide (decrementBy ≤ oldVal) then oldVal - decrementBy else 0).
Proof.
  unfold is_u64. intros Hv Hd.
  destruct (Z.ltb_spec oldVal decrementBy).
  - by rewrite bool_decide_false by lia.
  - rewrite bool_decide_true by lia. apply wrap64_small. unfold is_u64. lia.
Qed.

Lemma decr_loop_alone cur decrementBy :
  is_u64 cur → is_u64 decrementBy →
  decr_loop [] cur decrementBy =
  (if bool_decide (decrementBy ≤ cur) then cur - decrementBy else 0).
Proof.
  intros Hv Hd. simpl. rewrite compare_exchange_same. simpl.
  by apply saturating_round.
Qed.

(** Whatever other threads store in between, the value the loop leaves is
    the saturating difference of the value its last [load] saw. *)
Lemma decr_loop_among others cur decrementBy :
  is_u64 cur → is_u64 decrementBy →
  Forall (λ other, ∀ v, other = Some v → is_u64 v) others →
  ∃ seen, (seen = cur ∨ Some seen ∈ others) ∧ is_u64 seen ∧
          decr_loop others cur decrementBy =
          (if bool_decide (decrementBy ≤ seen) then seen - decrementBy else 0).
Proof.
  intros Hv Hd Hothers. revert cur Hv.
  induction Hothers as [|other others Hother _ IH]; intros cur Hv.
  - exists cur. split; [by left|]. split; [done|]. by apply decr_loop_alone.
  - cbn [decr_loop]. unfold compare_exchange_strong.
    destruct (Z.eqb_spec (default cur other) cur) as [Heq|Hne].
    + exists cur. split; [by left|]. split; [done|].
      by apply saturating_round.
    + destruct other as [v|]; [|done]. simpl in *.
      destruct (IH v (Hother v eq_refl)) as (seen & Hseen & Hu & Hres).
      exists seen. split; [|done].
      destruct Hseen as [->|Hin]; right; [by left|by right].
Qed.

(** C5. The three decrements are saturating subtractions: the counter is
    left at [v - d] when [v ≥ d] and at 0 otherwise, never at a wrapped
    value. *)
Theorem decrements_saturate (vb : t) (decrementBy : Z) :
  is_u64 (dirtyQueueMem vb) → is_u64 (dirtyQueueAge vb) →
  is_u64 (dirtyQueuePendingWrites vb) → is_u64 decrementBy →
  let saturated v := if bool_decide (decrementBy ≤ v) then v - decrementBy else 0 in
  dirtyQueueMem (decrDirtyQueueMem decrementBy vb)
    = saturated (dirtyQueueMem vb) ∧
  (is_u32 decrementBy →
   dirtyQueueAge (decrDirtyQueueAge decrementBy vb)
     = saturated (dirtyQueueAge vb)) ∧
  dirtyQueuePendingWrites (decrDirtyQueuePendingWrites decrementBy vb)
    = saturated (dirtyQueuePendingWrites vb) ∧
  (∀ v, is_u64 v → is_u64 (saturated v) ∧ saturated v ≤ v).
Proof.
  intros Hmem Hage Hpw Hd saturated.
  unfold decrDirtyQueueMem, decrDirtyQueueAge, decrDirtyQueuePendingWrites,
    decrDirtyQueueMem_among, decrDirtyQueueAge_among,
    decrDirtyQueuePendingWrites_among.
  cbn [dirtyQueueMem dirtyQueueAge dirtyQueuePendingWrites
       set_dirtyQueueMem set_dirtyQueueAge set_dirtyQueuePendingWrites].
  rewrite !decr_loop_alone by done.
  repeat split; try done.
  all: subst saturated; cbv beta; unfold is_u64 in *; case_bool_decide; lia.
Qed.

Lemma decrements_saturate_witness :
  dirtyQueueMem (decrDirtyQueueMem 5 (set_dirtyQueueMem 3 Run.fresh)) = 0 ∧
  dirtyQueuePendingWrites
    (decrDirtyQueuePendingWrites 5 (set_dirtyQueuePendingWrites 8 Run.fresh)) = 3.
Proof.
  assert (H0 : is_u64 0) by (unfold is_u64; lia).
  assert (H3 : is_u64 3) by (unfold is_u64; lia).
  assert (H5 : is_u64 5) by (unfold is_u64; lia).
  assert (H8 : is_u64 8) by (unfold is_u64; lia).
  split.
  - rewrite (proj1 (decrements_saturate (set_dirtyQueueMem 3 Run.fresh) 5
                      H3 H0 H0 H5)). reflexivity.
  - rewrite (proj1 (proj2 (proj2
               (decrements_saturate (set_dirtyQueuePendingWrites 8 Run.fresh) 5
                  H0 H0 H8 H5)))). reflexivity.
Defined.

(** *** The bloom filter pair *)

(** C8. With a temp filter that is compacting or enabled, [swapFilter]
    makes it the main filter, enabled, and empties the temp slot; with a
    temp filter in any other status both filters are dropped. *)
Theorem swapFilter_replaces_or_discards (vb : t) (temp : BloomFilter) :
  tempFilter vb = Some temp →
  let after := swapFilter vb in
  (getStatus temp = BFILTER_COMPACTING ∨ getStatus temp = BFILTER_ENABLED →
   bFilter after = Some (setStatus BFILTER_ENABLED temp) ∧
   tempFilter after = None) ∧
  (getStatus temp ≠ BFILTER_COMPACTING → getStatus temp ≠ BFILTER_ENABLED →
   bFilter after = None ∧ tempFilter after = None).
Proof.
  intros Htemp after. subst after. unfold swapFilter. rewrite Htemp.
  assert (Hkeep : tempFilter
            match bFilter vb with
            | Some _ => set_bFilter None vb
            | None => vb
            end = Some temp) by (destruct (bFilter vb); done).
  assert (Hmain : ∀ other, other = Some temp →
            bFilter (set_tempFilter None
              match bFilter vb with
              | Some _ => set_bFilter None vb
              | None => vb
              end) = None ∧ Some temp = other).
  { intros other ->. by destruct (bFilter vb) eqn:Hb. }
  rewrite Hkeep. split.
  - intros Hok.
    assert (bool_decide (getStatus temp = BFILTER_COMPACTING)
            || bool_decide (getStatus temp = BFILTER_ENABLED) = true) as ->.
    { destruct Hok as [-> | ->]; done. }
    done.
  - intros Hc He.
    rewrite !bool_decide_false by done. cbn [orb].
    split; [|done]. by apply (Hmain (Some temp)).
Qed.

Lemma swapFilter_replaces_or_discards_witness :
  let compacting := {| status := BFILTER_COMPACTING; bitArray := [true; false] |} in
  let disabled := {| status := BFILTER_DISABLED; bitArray := [true; false] |} in
  let old := {| status := BFILTER_COMPACTING; bitArray := [false; true] |} in
  bFilter (swapFilter (Run.with_filters (Some old) (Some compacting)))
    = Some {| status := BFILTER_ENABLED; bitArray := [true; false] |} ∧
  bFilter (swapFilter (Run.with_filters (Some old) (Some disabled))) = None.
Proof.
  intros compacting disabled old. split.
  - apply (proj1 (swapFilter_replaces_or_discards
                    (Run.with_filters (Some old) (Some compacting))
                    compacting eq_refl)).
    by left.
  - apply (proj2 (swapFilter_replaces_or_discards
                    (Run.with_filters (Some old) (Some disabled))
                    disabled eq_refl)); discriminate.
Defined.

(** C10. Without a main filter [maybeKeyExistsInFilter] answers true for
    every key; with one it answers what the filter's [maybeKeyExists]
    answers. *)
Theorem probe_without_filter_allows
    (maybeKeyExists : BloomFilter → DocKey → bool) (key : DocKey) (vb : t) :
  (bFilter vb = None → maybeKeyExistsInFilter maybeKeyExists key vb = true) ∧
  (∀ f, bFilter vb = Some f →
        maybeKeyExistsInFilter maybeKeyExists key vb = maybeKeyExists f key).
Proof.
  unfold maybeKeyExistsInFilter. split.
  - by intros ->.
  - by intros f ->.
Qed.

Lemma probe_without_filter_allows_witness :
  maybeKeyExistsInFilter (λ _ _, false) "k" Run.fresh = true ∧
  maybeKeyExistsInFilter (λ _ _, false) "k"
    (Run.with_filters (Some {| status := BFILTER_ENABLED; bitArray := [] |}) None)
  = false.
Proof.
  split.
  - exact (proj1 (probe_without_filter_allows (λ _ _, false) "k" Run.fresh)
             eq_refl).
  - exact (proj2 (probe_without_filter_allows (λ _ _, false) "k"
             (Run.with_filters
                (Some {| status := BFILTER_ENABLED; bitArray := [] |}) None))
             _ eq_refl).
Defined.


(** *** What the engine is told *)

Lemma notifications_app c t1 t2 :
  notifications c (t1 ++ t2) = notifications c t1 ++ notifications c t2.
Proof.
  induction t1 as [|[c' code|c'] t1 IH]; simpl; [done| |done].
  case_bool_decide; simpl; by rewrite IH.
Qed.

Lemma notifications_snoc_store c trace x :
  notifications c (trace ++ [storeEngineSpecific x]) = notifications c trace.
Proof. rewrite notifications_app. simpl. apply app_nil_r. Qed.

Lemma notifications_absent c (l : list (Z * ENGINE_ERROR_CODE)) :
  c ∉ l.*1 → notifications c (announce <$> l) = [].
Proof.
  induction l as [|[k code] l IH]; simpl; [done|].
  rewrite not_elem_of_cons. intros [Hne Hnot].
  rewrite bool_decide_false by done. by apply IH.
Qed.

Lemma notifications_bound c code (l : list (Z * ENGINE_ERROR_CODE)) :
  NoDup l.*1 → (c, code) ∈ l → notifications c (announce <$> l) = [code].
Proof.
  induction l as [|[k code'] l IH]; simpl; [by rewrite elem_of_nil|].
  rewrite NoDup_cons, elem_of_cons. intros [Hfresh Hnodup] [Heq|Hin].
  - injection Heq as <- <-. rewrite bool_decide_true by done.
    by rewrite notifications_absent.
  - rewrite bool_decide_false; [by apply IH|].
    intros ->. apply Hfresh. apply list_elem_of_fmap. by exists (c, code).
Qed.

(** Walking [toNotify] tells each cookie in it its status, once. *)
Lemma notifications_notify_all c (m : gmap Z ENGINE_ERROR_CODE) :
  notifications c (notify_all m) =
  match m !! c with Some code => [code] | None => [] end.
Proof.
  unfold notify_all.
  pose proof (merge_sort_Permutation by_cookie (map_to_list m)) as Hperm.
  destruct (m !! c) as [code|] eqn:Hc.
  - apply notifications_bound.
    + rewrite Hperm. apply NoDup_fst_map_to_list.
    + rewrite Hperm. by apply elem_of_map_to_list.
  - apply notifications_absent. rewrite Hperm.
    intros ([k code] & -> & Hin)%list_elem_of_fmap.
    apply elem_of_map_to_list in Hin. simpl in *. congruence.
Qed.

(** *** Walks over the waiter list *)

Lemma walk_cons visit entry rest sw :
  walk visit (entry :: rest) sw =
  (if (visit entry sw).1 then (walk visit rest (visit entry sw).2).1
   else entry :: (walk visit rest (visit entry sw).2).1,
   (walk visit rest (visit entry sw).2).2).
Proof.
  simpl. destruct (visit entry sw) as [erased sw1]. simpl.
  destruct (walk visit rest sw1) as [kept sw2]. done.
Qed.

Lemma walk_calls_silent visit c :
  (∀ entry sw, notifications c (calls (visit entry sw).2)
               = notifications c (calls sw)) →
  ∀ entries sw, notifications c (calls (walk visit entries sw).2)
                = notifications c (calls sw).
Proof.
  intros Hvisit. induction entries as [|entry rest IH]; intros sw; [done|].
  rewrite walk_cons. cbn [snd]. by rewrite IH, Hvisit.
Qed.

Section Sweeps.

Context `{!ChkFlushBounds} `{!Clock}.

Lemma persistence_visit_silent idNum isBySeqno c entry sw :
  notifications c (calls (persistence_visit idNum isBySeqno entry sw).2)
  = notifications c (calls sw).
Proof.
  unfold persistence_visit.
  destruct (negb _); [done|]. cbv zeta. cbn [read_clock].
  destruct (Z.leb _ _); [done|].
  destruct (Z.ltb _ _); [|done].
  cbn [snd calls]. apply notifications_snoc_store.
Qed.

(** A waiter of the right kind whose target is reached is erased. *)
Lemma persistence_visit_reached idNum isBySeqno entry sw :
  hp_isBySeqno entry = isBySeqno → hp_id entry ≤ idNum →
  (persistence_visit idNum isBySeqno entry sw).1 = true ∧
  toNotify (persistence_visit idNum isBySeqno entry sw).2
    = <[hp_cookie entry := ENGINE_SUCCESS]> (toNotify sw).
Proof.
  intros <- Hid. unfold persistence_visit.
  rewrite eqb_reflx. cbn [negb]. cbv zeta. cbn [read_clock].
  by rewrite (proj2 (Z.leb_le _ _) Hid).
Qed.

(** A waiter of the other kind is stepped over. *)
Lemma persistence_visit_other_kind idNum isBySeqno entry sw :
  hp_isBySeqno entry ≠ isBySeqno →
  persistence_visit idNum isBySeqno entry sw = (false, sw).
Proof.
  intros Hkind. unfold persistence_visit.
  destruct isBySeqno, (hp_isBySeqno entry); done.
Qed.

Lemma persistence_visit_other_cookie idNum isBySeqno c entry sw :
  hp_cookie entry ≠ c →
  toNotify (persistence_visit idNum isBySeqno entry sw).2 !! c
  = toNotify sw !! c.
Proof.
  intros Hc. unfold persistence_visit.
  destruct (negb _); [done|]. cbv zeta. cbn [read_clock].
  destruct (Z.leb _ _); [by apply lookup_insert_ne|].
  destruct (Z.ltb _ _); [by apply lookup_insert_ne|done].
Qed.

Lemma walk_persistence_untouched idNum isBySeqno c entries sw :
  (∀ entry, entry ∈ entries → hp_cookie entry = c →
            hp_isBySeqno entry ≠ isBySeqno) →
  toNotify (walk (persistence_visit idNum isBySeqno) entries sw).2 !! c
  = toNotify sw !! c.
Proof.
  revert sw. induction entries as [|entry rest IH]; intros sw Hkind; [done|].
  rewrite walk_cons. cbn [snd].
  rewrite IH by (intros e He; apply Hkind; by right).
  destruct (decide (hp_cookie entry = c)) as [Hc|Hc].
  - rewrite persistence_visit_other_kind; [done|].
    apply Hkind; [by left|done].
  - by apply persistence_visit_other_cookie.
Qed.

Lemma walk_persistence_reached idNum isBySeqno entries sw w :
  NoDup (hp_cookie <$> entries) → w ∈ entries →
  hp_isBySeqno w = isBySeqno → hp_id w ≤ idNum →
  toNotify (walk (persistence_visit idNum isBySeqno) entries sw).2
    !! hp_cookie w = Some ENGINE_SUCCESS.
Proof.
  revert sw. induction entries as [|entry rest IH];
    intros sw Hnodup Hin Hkind Hid; [by apply elem_of_nil in Hin|].
  rewrite fmap_cons, NoDup_cons in Hnodup. destruct Hnodup as [Hfresh Hnodup].
  rewrite walk_cons. cbn [snd].
  apply elem_of_cons in Hin as [<-|Hin]; [|by apply IH].
  rewrite walk_persistence_untouched.
  - rewrite (proj2 (persistence_visit_reached idNum isBySeqno w sw Hkind Hid)).
    apply lookup_insert_eq.
  - intros e He Hc. exfalso. apply Hfresh. rewrite <- Hc.
    by apply list_elem_of_fmap_2.
Qed.

Lemma walk_persistence_kept idNum isBySeqno entries sw w :
  w ∈ (walk (persistence_visit idNum isBySeqno) entries sw).1 →
  w ∈ entries ∧ ¬ (hp_isBySeqno w = isBySeqno ∧ hp_id w ≤ idNum).
Proof.
  revert sw. induction entries as [|entry rest IH]; intros sw;
    [simpl; by rewrite elem_of_nil|].
  rewrite walk_cons. cbn [fst].
  destruct ((persistence_visit idNum isBySeqno entry sw).1) eqn:Herased.
  - intros [Hin Hnot]%IH. split; [by right|done].
  - rewrite elem_of_cons. intros [->|[Hin Hnot]%IH].
    + split; [by left|]. intros [Hkind Hid].
      destruct (persistence_visit_reached idNum isBySeqno entry sw Hkind Hid).
      congruence.
    + split; [by right|done].
Qed.

Lemma walk_persistence_keeps_other_kind idNum isBySeqno entries sw w :
  w ∈ entries → hp_isBySeqno w ≠ isBySeqno →
  w ∈ (walk (persistence_visit idNum isBySeqno) entries sw).1.
Proof.
  revert sw. induction entries as [|entry rest IH]; intros sw Hin Hkind;
    [by apply elem_of_nil in Hin|].
  rewrite walk_cons. cbn [fst].
  apply elem_of_cons in Hin as [<-|Hin].
  - rewrite persistence_visit_other_kind by done. by left.
  - destruct ((persistence_visit idNum isBySeqno entry sw).1);
      [by apply IH|]. right. by apply IH.
Qed.

Lemma notifyOnPersistence_unfold idNum isBySeqno vb p :
  let start := {| toNotify := ∅; calls := []; sw_shard := shard vb;
                  proc := p |} in
  let done := walk (persistence_visit idNum isBySeqno) (hpChks vb) start in
  hpChks (notifyOnPersistence idNum isBySeqno vb p).1.1 = done.1 ∧
  (notifyOnPersistence idNum isBySeqno vb p).2
    = calls done.2 ++ notify_all (toNotify done.2).
Proof.
  cbv zeta. unfold notifyOnPersistence.
  by destruct (walk _ _ _) as [kept sw].
Qed.

(** C2, amended. When the registered waiters have pairwise distinct cookies,
    [notifyOnPersistence(S, BySeqno)] notifies every BySeqno waiter with
    target at most [S] exactly once, with success, and removes it from the
    list; the ByCheckpointId waiters stay in the list and are not
    notified. *)
Theorem persistence_resolves_distinct_waiters (persisted : Z) (vb : t)
    (p : Process) :
  NoDup (hp_cookies vb) → persistence_resolves_waiters persisted vb p.
Proof.
  intros Hnodup. unfold persistence_resolves_waiters. cbv zeta.
  destruct (notifyOnPersistence_unfold persisted true vb p) as [-> ->].
  split.
  - intros w Hin Hkind Hid. split.
    + rewrite notifications_app, notifications_notify_all.
      rewrite (walk_calls_silent _ _ (persistence_visit_silent _ _ _)).
      by rewrite walk_persistence_reached.
    + by intros [_ []]%walk_persistence_kept.
  - intros w Hin Hkind. split.
    + apply walk_persistence_keeps_other_kind; [done|]. by rewrite Hkind.
    + rewrite notifications_app, notifications_notify_all.
      rewrite (walk_calls_silent _ _ (persistence_visit_silent _ _ _)).
      rewrite walk_persistence_untouched; [done|].
      intros e He Hc.
      assert (e = w) as ->; [|by rewrite Hkind].
      unfold hp_cookies in Hnodup.
      apply list_elem_of_lookup in He as [i Hi].
      apply list_elem_of_lookup in Hin as [j Hj].
      assert (i = j) as ->; [|congruence].
      eapply NoDup_lookup; [exact Hnodup| |];
        rewrite list_lookup_fmap; [by rewrite Hi|by rewrite Hj, Hc].
Qed.


(** *** The sweep of [notifyAllPendingConnsFailed] *)

Lemma walk_failed_erases entries sw : (walk failed_visit entries sw).1 = [].
Proof.
  revert sw. induction entries as [|entry rest IH]; intros sw; [done|].
  rewrite walk_cons. cbn [fst failed_visit]. apply IH.
Qed.

Lemma walk_failed_lookup c entries sw :
  toNotify (walk failed_visit entries sw).2 !! c =
  if decide (c ∈ hp_cookie <$> entries) then Some ENGINE_TMPFAIL
  else toNotify sw !! c.
Proof.
  revert sw. induction entries as [|entry rest IH]; intros sw.
  - rewrite decide_False by (simpl; apply not_elem_of_nil). done.
  - rewrite walk_cons. cbn [snd]. rewrite IH. cbn [failed_visit snd toNotify].
    rewrite fmap_cons.
    destruct (decide (c ∈ hp_cookie <$> rest)) as [Hin|Hnot].
    + rewrite decide_True; [done|by right].
    + destruct (decide (hp_cookie entry = c)) as [<-|Hne].
      * rewrite lookup_insert_eq. rewrite decide_True; [done|by left].
      * rewrite lookup_insert_ne by done.
        rewrite decide_False; [done|].
        rewrite elem_of_cons. intros [?|?]; congruence.
Qed.

Lemma failed_visit_silent c entry sw :
  notifications c (calls (failed_visit entry sw).2)
  = notifications c (calls sw).
Proof. apply notifications_snoc_store. Qed.

Lemma failed_bgitems_lookup c bgitems sw :
  toNotify (failed_bgitems bgitems sw) !! c =
  if decide (c ∈ bg_cookie <$> bgitems) then Some ENGINE_NOT_MY_VBUCKET
  else toNotify sw !! c.
Proof.
  revert sw. induction bgitems as [|bgitem rest IH]; intros sw.
  - rewrite decide_False by (simpl; apply not_elem_of_nil). done.
  - cbn [failed_bgitems]. rewrite IH. cbn [toNotify]. rewrite fmap_cons.
    destruct (decide (c ∈ bg_cookie <$> rest)) as [Hin|Hnot].
    + rewrite decide_True; [done|by right].
    + destruct (decide (bg_cookie bgitem = c)) as [<-|Hne].
      * rewrite lookup_insert_eq. rewrite decide_True; [done|by left].
      * rewrite lookup_insert_ne by done.
        rewrite decide_False; [done|].
        rewrite elem_of_cons. intros [?|?]; congruence.
Qed.

Lemma failed_bgitems_silent c bgitems sw :
  notifications c (calls (failed_bgitems bgitems sw))
  = notifications c (calls sw).
Proof.
  revert sw. induction bgitems as [|bgitem rest IH]; intros sw; [done|].
  cbn [failed_bgitems]. rewrite IH. apply notifications_snoc_store.
Qed.

Lemma failed_bgfetches_lookup c bgfs sw :
  toNotify (failed_bgfetches bgfs sw) !! c =
  if decide (c ∈ bg_cookie <$> concat ((λ bgf, bgfetched_list bgf.2) <$> bgfs))
  then Some ENGINE_NOT_MY_VBUCKET
  else toNotify sw !! c.
Proof.
  revert sw. induction bgfs as [|bgf rest IH]; intros sw.
  - rewrite decide_False by (simpl; apply not_elem_of_nil). done.
  - cbn [failed_bgfetches]. rewrite IH, failed_bgitems_lookup.
    rewrite fmap_cons. cbn [concat]. rewrite fmap_app.
    repeat case_decide; try done; exfalso.
    all: rewrite elem_of_app in *; tauto.
Qed.

Lemma failed_bgfetches_silent c bgfs sw :
  notifications c (calls (failed_bgfetches bgfs sw))
  = notifications c (calls sw).
Proof.
  revert sw. induction bgfs as [|bgf rest IH]; intros sw; [done|].
  cbn [failed_bgfetches]. by rewrite IH, failed_bgitems_silent.
Qed.

Lemma fire_pending_absent c code stack :
  c ∉ stack → notifications c (fire_pending code stack) = [].
Proof.
  induction stack as [|x stack IH]; [done|].
  rewrite not_elem_of_cons. intros [Hne Hnot]. simpl.
  rewrite bool_decide_false by done. by apply IH.
Qed.

Lemma fire_pending_once c code stack :
  NoDup stack → c ∈ stack → notifications c (fire_pending code stack) = [code].
Proof.
  induction stack as [|x stack IH]; [by rewrite elem_of_nil|].
  rewrite NoDup_cons, elem_of_cons. intros [Hfresh Hnodup] [->|Hin]; simpl.
  - rewrite bool_decide_true by done. by rewrite fire_pending_absent.
  - rewrite bool_decide_false by (intros ->; done). by apply IH.
Qed.

Lemma fireAllOps_code_frame code vb p :
  hpChks (fireAllOps_code code vb p).1.1 = hpChks vb ∧
  pendingBGFetches (fireAllOps_code code vb p).1.1 = pendingBGFetches vb.
Proof. unfold fireAllOps_code. by destruct (Z.ltb _ _). Qed.

Lemma fireAllOps_frame vb p :
  hpChks (fireAllOps vb p).1.1 = hpChks vb ∧
  pendingBGFetches (fireAllOps vb p).1.1 = pendingBGFetches vb.
Proof.
  unfold fireAllOps. destruct (state vb); try apply fireAllOps_code_frame.
  done.
Qed.

Lemma fireAllOps_code_absent code c vb p :
  c ∉ pendingOps vb → notifications c (fireAllOps_code code vb p).2 = [].
Proof.
  intros Hnot. unfold fireAllOps_code. destruct (Z.ltb _ _); [|done].
  cbn. apply fire_pending_absent. by rewrite elem_of_reverse.
Qed.

Lemma fireAllOps_absent c vb p :
  c ∉ pendingOps vb → notifications c (fireAllOps vb p).2 = [].
Proof.
  intros Hnot. unfold fireAllOps.
  destruct (state vb); try by apply fireAllOps_code_absent.
  done.
Qed.

Lemma fireAllOps_not_my_vbucket c vb p :
  state vb = vbucket_state_replica ∨ state vb = vbucket_state_dead →
  0 < pendingOpsStart vb → NoDup (pendingOps vb) → c ∈ pendingOps vb →
  notifications c (fireAllOps vb p).2 = [ENGINE_NOT_MY_VBUCKET].
Proof.
  intros Hstate Hstart Hnodup Hin. unfold fireAllOps.
  assert (notifications c (fireAllOps_code ENGINE_NOT_MY_VBUCKET vb p).2
          = [ENGINE_NOT_MY_VBUCKET]) as Hfire.
  { unfold fireAllOps_code. rewrite (proj2 (Z.ltb_lt _ _) Hstart). cbn.
    apply fire_pending_once;
      [by rewrite reverse_Permutation|by rewrite elem_of_reverse]. }
  by destruct Hstate as [-> | ->].
Qed.

(** What [notifyAllPendingConnsFailed] tells a cookie: the status its own
    sweep keeps for it, a parked fetch overriding a high-priority wait,
    and then whatever [fireAllOps] adds. *)
Lemma failed_sweep_trace c vb p :
  ∃ vb' p',
    pendingOps vb' = pendingOps vb ∧ pendingOpsStart vb' = pendingOpsStart vb ∧
    state vb' = state vb ∧
    hpChks (notifyAllPendingConnsFailed vb p).1.1 = [] ∧
    pendingBGFetches (notifyAllPendingConnsFailed vb p).1.1 = [] ∧
    notifications c (notifyAllPendingConnsFailed vb p).2 =
    (if decide (c ∈ bg_cookies vb) then [ENGINE_NOT_MY_VBUCKET]
     else if decide (c ∈ hp_cookies vb) then [ENGINE_TMPFAIL]
     else []) ++ notifications c (fireAllOps vb' p').2.
Proof.
  unfold notifyAllPendingConnsFailed.
  pose proof (walk_failed_erases (hpChks vb)
    {| toNotify := ∅; calls := []; sw_shard := shard vb; proc := p |}) as Hkept.
  pose proof (walk_failed_lookup c (hpChks vb)
    {| toNotify := ∅; calls := []; sw_shard := shard vb; proc := p |}) as Hlook.
  pose proof (walk_calls_silent _ c (failed_visit_silent c) (hpChks vb)
    {| toNotify := ∅; calls := []; sw_shard := shard vb; proc := p |}) as Hsilent.
  destruct (walk failed_visit _ _) as [kept sw].
  cbn [fst snd toNotify calls notifications] in *. subst kept.
  cbn [pendingBGFetches set_hpChks set_shard].
  set (sw2 := failed_bgfetches (pendingBGFetches vb) sw).
  set (vb1 := set_pendingBGFetches [] (set_hpChks [] (set_shard (sw_shard sw) vb))).
  exists vb1, (proc sw2).
  destruct (fireAllOps_frame vb1 (proc sw2)) as [Hhp Hbg].
  destruct (fireAllOps vb1 (proc sw2)) as [[vb2 p2] fired]. cbn [fst snd] in *.
  repeat split; try done.
  rewrite !notifications_app, notifications_notify_all.
  subst sw2. rewrite failed_bgfetches_silent, Hsilent. cbn [notifications app].
  rewrite failed_bgfetches_lookup, Hlook. fold (bg_cookies vb) (hp_cookies vb).
  rewrite lookup_empty. by repeat case_decide.
Qed.

(** C9, amended. When no cookie is parked in two of the three containers,
    [notifyAllPendingConnsFailed] tells every cookie of the high-priority
    list TempFail and every cookie of the background-fetch map
    NotMyVBucket, each exactly once, and leaves both containers empty. *)
Theorem failed_sweep_notifies_apart (vb : t) (p : Process) :
  parked_apart vb → failed_sweep_notifies vb p.
Proof.
  intros [Hhp_bg Hops]. unfold failed_sweep_notifies. cbv zeta.
  split; [|split].
  - intros c Hc.
    destruct (failed_sweep_trace c vb p)
      as (vb' & p' & Hsame & _ & _ & _ & _ & ->).
    rewrite decide_False by by apply Hhp_bg.
    rewrite decide_True by done.
    rewrite fireAllOps_absent; [done|].
    rewrite Hsame. intros Hin. by destruct (Hops c Hin).
  - intros c Hc.
    destruct (failed_sweep_trace c vb p)
      as (vb' & p' & Hsame & _ & _ & _ & _ & ->).
    rewrite decide_True by done.
    rewrite fireAllOps_absent; [done|].
    rewrite Hsame. intros Hin. by destruct (Hops c Hin).
  - destruct (failed_sweep_trace 0 vb p) as (_ & _ & _ & _ & _ & ? & ? & _).
    done.
Qed.

(** *** State changes and the waiters *)

(** C3, amended. [setState] itself notifies nobody and leaves the pending
    ops and the high-priority waiters registered. The notifications come
    from [notifyAllPendingConnsFailed], run after a [setState] to replica
    or dead: when the pending ops are distinct and started, and no cookie
    is parked in two containers, every pending op is then told NotMyVBucket
    exactly once and every high-priority waiter TempFail exactly once. *)
Theorem setState_then_sweep_notifies (to : vbucket_state_t)
    (vb : t) (p : Process) :
  to = vbucket_state_replica ∨ to = vbucket_state_dead →
  0 < pendingOpsStart vb → NoDup (pendingOps vb) → parked_apart vb →
  let moved := setState to vb in
  let swept := notifyAllPendingConnsFailed moved.1 p in
  moved.2 = [] ∧
  pendingOps moved.1 = pendingOps vb ∧ hpChks moved.1 = hpChks vb ∧
  (∀ c, c ∈ pendingOps vb →
        notifications c swept.2 = [ENGINE_NOT_MY_VBUCKET]) ∧
  (∀ w, w ∈ hpChks vb →
        notifications (hp_cookie w) swept.2 = [ENGINE_TMPFAIL]).
Proof.
  intros Hto Hstart Hnodup [Hhp_bg Hops]. cbv zeta.
  split; [done|]. split; [done|]. split; [done|].
  set (moved := (setState to vb).1).
  assert (Hmoved : state moved = to ∧ pendingOps moved = pendingOps vb ∧
                   pendingOpsStart moved = pendingOpsStart vb ∧
                   hp_cookies moved = hp_cookies vb ∧
                   bg_cookies moved = bg_cookies vb) by done.
  destruct Hmoved as (Hstate & Hpending & Hstarted & Hhp & Hbg).
  split.
  - intros c Hc. destruct (Hops c Hc) as [Hnot_hp Hnot_bg].
    destruct (failed_sweep_trace c moved p)
      as (vb' & p' & Hsame & Hsame_start & Hsame_state & _ & _ & ->).
    rewrite Hhp, Hbg. rewrite !decide_False by done. cbn [app].
    apply fireAllOps_not_my_vbucket.
    + rewrite Hsame_state, Hstate. exact Hto.
    + by rewrite Hsame_start, Hstarted.
    + by rewrite Hsame, Hpending.
    + by rewrite Hsame, Hpending.
  - intros w Hw.
    assert (Hc : hp_cookie w ∈ hp_cookies vb) by by apply list_elem_of_fmap_2.
    destruct (failed_sweep_trace (hp_cookie w) moved p)
      as (vb' & p' & Hsame & _ & _ & _ & _ & ->).
    rewrite Hhp, Hbg.
    rewrite decide_False by by apply Hhp_bg.
    rewrite decide_True by done.
    rewrite fireAllOps_absent; [done|].
    rewrite Hsame, Hpending. intros Hin. by destruct (Hops _ Hin).
Qed.

End Sweeps.

(** *** The statements on concrete runs *)

(** C2, as stated, fails: a cookie that waits twice is told once, and what
    it is told is the status of its later entry. Here the entry for seqno 1
    is reached, the entry for seqno 100 has timed out, and the cookie hears
    a temporary failure only. *)
Lemma persistence_overridden_by_timeout :
  ¬ @persistence_resolves_waiters Run.bounds Run.clock 5
      Run.twice_waiting.1 Run.twice_waiting.2.
Proof.
  intros [Hreached _].
  destruct (Hreached {| hp_cookie := 77; hp_id := 1; hp_isBySeqno := true;
                        hp_start := 0 |}) as [Htold _].
  - apply list_elem_of_In. vm_compute. by left.
  - reflexivity.
  - simpl. lia.
  - vm_compute in Htold. discriminate.
Qed.

Lemma persistence_resolves_distinct_waiters_witness :
  NoDup (hp_cookies Run.two_waiters.1) ∧
  @persistence_resolves_waiters Run.bounds Run.clock 5
    Run.two_waiters.1 Run.two_waiters.2.
Proof.
  assert (Hnodup : NoDup (hp_cookies Run.two_waiters.1)).
  { apply (bool_decide_unpack _). by vm_compute. }
  split; [exact Hnodup|].
  exact (@persistence_resolves_distinct_waiters Run.bounds Run.clock 5
           Run.two_waiters.1 Run.two_waiters.2 Hnodup).
Defined.

(** C9, as stated, fails: a cookie with a high-priority wait and a parked
    fetch is told NotMyVBucket, not TempFail. *)
Lemma failed_sweep_overrides_waiter :
  ¬ @failed_sweep_notifies Run.clock
      Run.waiting_and_fetching.1 Run.waiting_and_fetching.2.
Proof.
  intros [Hhp _]. specialize (Hhp 77).
  assert (Hin : 77 ∈ hp_cookies Run.waiting_and_fetching.1).
  { apply list_elem_of_In. vm_compute. by left. }
  specialize (Hhp Hin). vm_compute in Hhp. discriminate.
Qed.

Lemma failed_sweep_notifies_apart_witness :
  parked_apart Run.waiter_and_fetcher.1 ∧
  @failed_sweep_notifies Run.clock
    Run.waiter_and_fetcher.1 Run.waiter_and_fetcher.2.
Proof.
  assert (Hapart : parked_apart Run.waiter_and_fetcher.1).
  { split.
    - intros c Hc%list_elem_of_In Hb%list_elem_of_In.
      vm_compute in Hc, Hb. destruct Hc as [<-|[]]. by destruct Hb as [|[]].
    - intros c Hc%list_elem_of_In. vm_compute in Hc. destruct Hc. }
  split; [exact Hapart|].
  exact (@failed_sweep_notifies_apart Run.clock
           Run.waiter_and_fetcher.1 Run.waiter_and_fetcher.2 Hapart).
Defined.

(** C3, as stated, fails: [setState] calls nobody. *)
Lemma setState_notifies_nobody :
  ¬ setState_notifies vbucket_state_dead Run.with_pending_op.1.
Proof.
  intros Hclaim.
  destruct (Hclaim eq_refl) as [Hops _]; [discriminate|].
  specialize (Hops 5).
  assert (Hin : 5 ∈ pendingOps Run.with_pending_op.1).
  { apply list_elem_of_In. vm_compute. by left. }
  specialize (Hops Hin). vm_compute in Hops. discriminate.
Qed.

Lemma setState_then_sweep_notifies_witness :
  let moved := setState vbucket_state_dead Run.with_pending_op.1 in
  let swept := @notifyAllPendingConnsFailed Run.clock moved.1
                 Run.with_pending_op.2 in
  notifications 5 swept.2 = [ENGINE_NOT_MY_VBUCKET] ∧
  notifications 7 swept.2 = [ENGINE_TMPFAIL].
Proof.
  assert (Hstart : 0 < pendingOpsStart Run.with_pending_op.1)
    by (vm_compute; reflexivity).
  assert (Hnodup : NoDup (pendingOps Run.with_pending_op.1)).
  { apply (bool_decide_unpack _). by vm_compute. }
  assert (Hapart : parked_apart Run.with_pending_op.1).
  { split.
    - intros c _ Hb%list_elem_of_In. vm_compute in Hb. destruct Hb.
    - intros c Hc%list_elem_of_In. vm_compute in Hc. destruct Hc as [<-|[]].
      split.
      + intros Hh%list_elem_of_In. vm_compute in Hh. by destruct Hh as [|[]].
      + intros Hb%list_elem_of_In. vm_compute in Hb. destruct Hb. }
  destruct (@setState_then_sweep_notifies Run.clock vbucket_state_dead
              Run.with_pending_op.1 Run.with_pending_op.2
              (or_intror eq_refl) Hstart Hnodup Hapart)
    as (_ & _ & _ & Hops & Hhp).
  split.
  - apply Hops. apply list_elem_of_In. vm_compute. by left.
  - apply (Hhp {| hp_cookie := 7; hp_id := 10; hp_isBySeqno := true;
                  hp_start := 0 |}).
    apply list_elem_of_In. vm_compute. by left.
Defined.

End VBucketFacts.

(** * Further properties of the filter *)

Module FilterAlgebra.
Import VBucketFilter VBucketFilterFacts.

(** Two well-formed sets with the same members are the same list. *)
Lemma sorted_ext l1 l2 :
  sorted l1 → sorted l2 → (∀ x, x ∈ l1 ↔ x ∈ l2) → l1 = l2.
Proof.
  revert l2. induction l1 as [|x l1 IH]; intros [|y l2] Hs1 Hs2 Hmem.
  - done.
  - exfalso. eapply not_elem_of_nil. apply Hmem. by left.
  - exfalso. eapply not_elem_of_nil. apply Hmem. by left.
  - destruct (sorted_inv _ _ Hs1) as [Hs1' Hlt1].
    destruct (sorted_inv _ _ Hs2) as [Hs2' Hlt2].
    rewrite Forall_forall in Hlt1, Hlt2.
    assert (x = y) as ->.
    { assert (Hx : x ∈ y :: l2) by (apply Hmem; by left).
      assert (Hy : y ∈ x :: l1) by (apply Hmem; by left).
      apply elem_of_cons in Hx as [?|Hx]; [done|].
      apply elem_of_cons in Hy as [?|Hy]; [done|].
      specialize (Hlt1 _ Hy). specialize (Hlt2 _ Hx). lia. }
    f_equal. apply IH; [done|done|].
    intros z. split; intros Hz.
    + assert (Hin : z ∈ y :: l2) by (apply Hmem; by right).
      apply elem_of_cons in Hin as [->|?]; [|done].
      specialize (Hlt1 _ Hz). lia.
    + assert (Hin : z ∈ y :: l1) by (apply Hmem; by right).
      apply elem_of_cons in Hin as [->|?]; [|done].
      specialize (Hlt2 _ Hz). lia.
Qed.

Lemma filter_ext (a b : t) :
  sorted (acceptable a) → sorted (acceptable b) →
  (∀ x, x ∈ acceptable a ↔ x ∈ acceptable b) → a = b.
Proof.
  destruct a as [la], b as [lb]. simpl. intros Ha Hb Hmem.
  f_equal. by apply sorted_ext.
Qed.

Lemma filter_diff_sorted a b : sorted (acceptable (filter_diff a b)).
Proof. apply from_vector_sorted. Qed.

Lemma filter_intersection_sorted a b :
  sorted (acceptable (filter_intersection a b)).
Proof. apply from_vector_sorted. Qed.

Lemma elem_of_filter_diff a b x :
  sorted (acceptable a) → sorted (acceptable b) →
  x ∈ acceptable (filter_diff a b) ↔
  (x ∈ acceptable a ∧ (x ∉ acceptable b)) ∨
  ((x ∉ acceptable a) ∧ x ∈ acceptable b).
Proof.
  intros Ha Hb. unfold filter_diff. cbv zeta.
  rewrite elem_of_from_vector. by apply elem_of_set_symmetric_difference.
Qed.

Lemma elem_of_filter_intersection a b x :
  sorted (acceptable a) → sorted (acceptable b) →
  x ∈ acceptable (filter_intersection a b) ↔
  x ∈ acceptable a ∧ x ∈ acceptable b.
Proof.
  intros Ha Hb. unfold filter_intersection. cbv zeta.
  rewrite elem_of_from_vector. by apply elem_of_set_intersection.
Qed.

(** X1. The set operations stay inside the type: the symmetric difference
    and the intersection of two well-formed filters of 16-bit ids are
    well-formed filters of 16-bit ids. *)
Theorem set_operations_keep_valid (a b : t) :
  valid a → valid b →
  valid (filter_diff a b) ∧ valid (filter_intersection a b).
Proof.
  intros [Ha Ha16] [Hb Hb16]. rewrite Forall_forall in Ha16, Hb16.
  split; (split; [apply from_vector_sorted|]); apply Forall_forall; intros x.
  - rewrite elem_of_filter_diff by done. intros [[? _]|[_ ?]]; auto.
  - rewrite elem_of_filter_intersection by done. intros [? _]. auto.
Qed.

Lemma set_operations_keep_valid_witness :
  valid (filter_diff (VBucketFilter [1; 2; 3]) (VBucketFilter [2; 4])) ∧
  valid (filter_intersection (VBucketFilter [1; 2; 3]) (VBucketFilter [2; 4])).
Proof.
  assert (Ha : valid (VBucketFilter [1; 2; 3])).
  { split; simpl; [unfold sorted|]; repeat constructor; unfold is_u16; lia. }
  assert (Hb : valid (VBucketFilter [2; 4])).
  { split; simpl; [unfold sorted|]; repeat constructor; unfold is_u16; lia. }
  exact (set_operations_keep_valid _ _ Ha Hb).
Defined.

(** X2. Taking the difference with the same filter twice gives the first
    filter back; the difference of a filter with itself is the empty filter
    and the difference with the empty filter is the filter itself. *)
Theorem filter_diff_involution (a b : t) :
  sorted (acceptable a) → sorted (acceptable b) →
  filter_diff (filter_diff a b) b = a ∧
  filter_diff a a = VBucketFilter [] ∧
  filter_diff a (VBucketFilter []) = a.
Proof.
  intros Ha Hb.
  assert (Hempty : sorted (acceptable (VBucketFilter []))) by constructor.
  split; [|split].
  - apply filter_ext; [apply filter_diff_sorted|done|]. intros x.
    rewrite elem_of_filter_diff by (done || apply filter_diff_sorted).
    rewrite elem_of_filter_diff by done.
    destruct (decide (x ∈ acceptable a)), (decide (x ∈ acceptable b)); tauto.
  - apply filter_ext; [apply filter_diff_sorted|done|]. intros x.
    rewrite elem_of_filter_diff by done. simpl. rewrite elem_of_nil. tauto.
  - apply filter_ext; [apply filter_diff_sorted|done|]. intros x.
    rewrite elem_of_filter_diff by done. simpl. rewrite elem_of_nil. tauto.
Qed.

Lemma filter_diff_involution_witness :
  filter_diff (filter_diff (VBucketFilter [1; 2; 3]) (VBucketFilter [2; 4]))
              (VBucketFilter [2; 4]) = VBucketFilter [1; 2; 3].
Proof.
  assert (Ha : sorted (acceptable (VBucketFilter [1; 2; 3]))).
  { unfold sorted. simpl. repeat constructor; lia. }
  assert (Hb : sorted (acceptable (VBucketFilter [2; 4]))).
  { unfold sorted. simpl. repeat constructor; lia. }
  exact (proj1 (filter_diff_involution _ _ Ha Hb)).
Defined.

Lemma set_intersection_comm a b : set_intersection a b = set_intersection b a.
Proof.
  funelim (set_intersection a b); simp set_intersection.
  - match goal with |- _ = set_intersection ?l _ => by destruct l end.
  - done.
  - assert (Z.ltb y x = false) by lia. by_comparisons. done.
  - by_comparisons. done.
  - by_comparisons. assert (x = y) as -> by lia. by f_equal.
Qed.

(** X3. The intersection is commutative and idempotent, it is contained in
    both filters, and it has nothing in common with the symmetric
    difference. *)
Theorem filter_intersection_algebra (a b : t) :
  sorted (acceptable a) → sorted (acceptable b) →
  filter_intersection a b = filter_intersection b a ∧
  filter_intersection a a = a ∧
  filter_intersection (filter_intersection a b) a = filter_intersection a b ∧
  filter_intersection (filter_intersection a b) (filter_diff a b)
    = VBucketFilter [].
Proof.
  intros Ha Hb.
  assert (Hempty : sorted (acceptable (VBucketFilter []))) by constructor.
  split; [|split; [|split]].
  - unfold filter_intersection. cbv zeta. by rewrite set_intersection_comm.
  - apply filter_ext; [apply filter_intersection_sorted|done|]. intros x.
    rewrite elem_of_filter_intersection by done. tauto.
  - apply filter_ext; try apply filter_intersection_sorted. intros x.
    rewrite elem_of_filter_intersection
      by (done || apply filter_intersection_sorted).
    rewrite elem_of_filter_intersection by done. tauto.
  - apply filter_ext; [apply filter_intersection_sorted|done|]. intros x.
    rewrite elem_of_filter_intersection
      by (apply filter_intersection_sorted || apply filter_diff_sorted).
    rewrite elem_of_filter_intersection, elem_of_filter_diff by done.
    simpl. rewrite elem_of_nil. tauto.
Qed.

Lemma filter_intersection_algebra_witness :
  filter_intersection (VBucketFilter [1; 2; 3]) (VBucketFilter [2; 4]) =
  filter_intersection (VBucketFilter [2; 4]) (VBucketFilter [1; 2; 3]).
Proof.
  assert (Ha : sorted (acceptable (VBucketFilter [1; 2; 3]))).
  { unfold sorted. simpl. repeat constructor; lia. }
  assert (Hb : sorted (acceptable (VBucketFilter [2; 4]))).
  { unfold sorted. simpl. repeat constructor; lia. }
  exact (proj1 (filter_intersection_algebra _ _ Ha Hb)).
Defined.

(** *** The printer *)

Lemma isRange_loop_bounds val it k :
  k ≤ isRange_loop val it k ≤ k + Z.of_nat (length it).
Proof.
  revert k. induction it as [|x it IH]; intros k; simpl; [lia|].
  destruct (Z.eqb _ _); [|lia]. specialize (IH (k + 1)). lia.
Qed.

(** X4. [isRange] answers yes exactly when the two ids after the one it
    stands on continue it by one and by two, that is, when a run of at
    least three ids starts there. *)
Theorem isRange_iff_three_consecutive (val : Z) (rest : list Z) :
  Z.of_nat (length rest) < 2 ^ 64 - 1 →
  (isRange val rest).1 = true ↔
  ∃ tl, rest = (val + 1) :: (val + 2) :: tl.
Proof.
  intros Hlen. unfold isRange. cbn [fst isRange_loop].
  rewrite Z.add_0_r, Z.eqb_refl.
  pose proof (isRange_loop_bounds val rest (0 + 1)) as Hb.
  rewrite wrap64_small by (unfold is_u64; lia).
  rewrite Z.ltb_lt.
  destruct rest as [|y [|z tl]]; cbn [isRange_loop].
  - split; [lia|]. by intros [tl [=]].
  - destruct (Z.eqb_spec (val + (0 + 1)) y); (split; [lia|]); by intros [tl [=]].
  - destruct (Z.eqb_spec (val + (0 + 1)) y) as [Hy|Hy].
    + destruct (Z.eqb_spec (val + (0 + 1 + 1)) z) as [Hz|Hz].
      * split; [|intros _].
        -- intros _. exists tl. f_equal; [lia|]. f_equal. lia.
        -- pose proof (isRange_loop_bounds val tl (0 + 1 + 1 + 1)). lia.
      * split; [lia|]. intros [tl' [= ? ? ?]]. lia.
    + split; [lia|]. intros [tl' [= ? ? ?]]. lia.
Qed.

Lemma isRange_iff_three_consecutive_witness :
  (isRange 5 [6; 7; 9]).1 = true ∧ (isRange 5 [6; 8]).1 = false.
Proof.
  split.
  - apply (isRange_iff_three_consecutive 5 [6; 7; 9]); [simpl; lia|].
    by exists [9].
  - apply not_true_is_false.
    intros [tl Htl]%(isRange_iff_three_consecutive 5 [6; 8]);
      [discriminate|simpl; lia].
Defined.

Lemma consecutive_seqZ lo n : consecutive lo (seqZ lo (Z.of_nat n)).
Proof.
  revert lo. induction n as [|n IH]; intros lo; [done|].
  rewrite Nat2Z.inj_succ, seqZ_cons by lia.
  replace (Z.pred (Z.succ (Z.of_nat n))) with (Z.of_nat n) by lia.
  simpl. split; [done|]. replace (lo + 1) with (Z.succ lo) by lia. apply IH.
Qed.

(** X5. A filter that is one unbroken range of three or more ids prints
    as that range alone, [{ [lo,hi] }]. *)
Theorem whole_range_prints_as_one_run (lo : Z) (n : nat) :
  (3 ≤ n)%nat → Z.of_nat n < 2 ^ 64 →
  operator_shl (VBucketFilter (seqZ lo (Z.of_nat n))) =
  "{ [" +:+ pretty lo +:+ "," +:+ pretty (lo + Z.of_nat n - 1) +:+ "] }".
Proof.
  intros Hn Hlen.
  assert (Hlength : length (seqZ lo (Z.of_nat n)) = n)
    by (rewrite length_seqZ; lia).
  destruct (seqZ lo (Z.of_nat n)) as [|x r'] eqn:Hseq;
    [simpl in Hlength; lia|].
  assert (Hcons : consecutive lo (x :: r'))
    by (rewrite <- Hseq; apply consecutive_seqZ).
  assert (x = lo) as -> by (by destruct Hcons).
  unfold operator_shl. cbn [acceptable].
  pose proof (print_loop_runs [lo :: r'] false "{ ") as Hprint.
  simpl concat in Hprint. rewrite app_nil_r in Hprint.
  rewrite Hprint; clear Hprint.
  - unfold render_run. rewrite bool_decide_true by lia.
    cbn [fmap list_fmap concat app comma_separated comma_each head default].
    rewrite (consecutive_last lo (lo :: r')) by done.
    rewrite Hlength. cbn [default].
    rewrite !string_app_assoc. reflexivity.
  - split; [|done]. exists lo, r'. split; [done|]. split; [done|]. done.
  - rewrite Hlength. done.
Qed.

Lemma whole_range_prints_as_one_run_witness :
  operator_shl (VBucketFilter (seqZ 0 1024)) = "{ [0,1023] }".
Proof.
  assert (H3 : (3 ≤ 1024)%nat) by lia.
  assert (Hlen : Z.of_nat 1024 < 2 ^ 64) by lia.
  pose proof (whole_range_prints_as_one_run 0 1024 H3 Hlen) as H.
  change (Z.of_nat 1024) with 1024 in H. rewrite H. reflexivity.
Defined.

End FilterAlgebra.

(** * Further properties of the vBucket *)

Module SweepFacts.
Import VBucket VBucketOps VBucketFacts.

(** *** Pending operations *)

Lemma fire_pending_fmap code stack :
  fire_pending code stack = (λ c, notifyIOComplete c code) <$> stack.
Proof. induction stack as [|c stack IH]; simpl; [done|]. by rewrite IH. Qed.

(** X6. On a vBucket that is not pending and whose pending ops were
    started, [fireAllOps] notifies exactly the pending ops, from the back of
    the vector to its front, with success when the vBucket is active and
    with NotMyVBucket otherwise; it leaves no pending op and a second call
    notifies nobody. On a pending vBucket, or when [pendingOpsStart] is 0,
    it does nothing at all. *)
Theorem fireAllOps_drains_back_to_front `{!Clock} (vb : t) (p : Process) :
  let code := if bool_decide (state vb = vbucket_state_active)
              then ENGINE_SUCCESS else ENGINE_NOT_MY_VBUCKET in
  let fired := fireAllOps vb p in
  (0 < pendingOpsStart vb → state vb ≠ vbucket_state_pending →
   fired.2 = (λ c, notifyIOComplete c code) <$> reverse (pendingOps vb) ∧
   pendingOps fired.1.1 = [] ∧ pendingOpsStart fired.1.1 = 0 ∧
   (fireAllOps fired.1.1 fired.1.2).2 = []) ∧
  (pendingOpsStart vb ≤ 0 ∨ state vb = vbucket_state_pending →
   fired = (vb, p, [])).
Proof.
  cbv zeta. split.
  - intros Hstart Hstate.
    assert (Hcode : ∀ code,
      (fireAllOps_code code vb p).2
        = (λ c, notifyIOComplete c code) <$> reverse (pendingOps vb) ∧
      pendingOps (fireAllOps_code code vb p).1.1 = [] ∧
      pendingOpsStart (fireAllOps_code code vb p).1.1 = 0 ∧
      state (fireAllOps_code code vb p).1.1 = state vb).
    { intros code. unfold fireAllOps_code.
      rewrite (proj2 (Z.ltb_lt _ _) Hstart). cbn.
      by rewrite fire_pending_fmap. }
    assert (Hagain : ∀ vb' p', pendingOpsStart vb' = 0 →
              (fireAllOps vb' p').2 = []).
    { intros vb' p' Hzero. unfold fireAllOps, fireAllOps_code.
      rewrite Hzero. by destruct (state vb'). }
    destruct (state vb) eqn:Hst; try done.
    all: rewrite ?bool_decide_true, ?bool_decide_false by done.
    all: match goal with
         | |- context [notifyIOComplete _ ?c] =>
             destruct (Hcode c) as (Htrace & Hops & Hzero & _);
             assert (fireAllOps vb p = fireAllOps_code c vb p) as ->
               by (unfold fireAllOps; by rewrite Hst)
         end.
    all: repeat split; try done; by apply Hagain.
  - intros [Hstart|Hstate]; unfold fireAllOps, fireAllOps_code.
    + rewrite (proj2 (Z.ltb_ge _ _) Hstart). by destruct (state vb).
    + by rewrite Hstate.
Qed.

Lemma fireAllOps_drains_back_to_front_witness :
  (@fireAllOps Run.clock
     (set_state vbucket_state_dead
        (set_pendingOpsStart 1 (set_pendingOps [5; 6] Run.fresh)))
     Run.start).2
  = [notifyIOComplete 6 ENGINE_NOT_MY_VBUCKET;
     notifyIOComplete 5 ENGINE_NOT_MY_VBUCKET].
Proof.
  set (vb := set_state vbucket_state_dead
               (set_pendingOpsStart 1 (set_pendingOps [5; 6] Run.fresh))).
  assert (Hstart : 0 < pendingOpsStart vb) by (vm_compute; reflexivity).
  assert (Hstate : state vb ≠ vbucket_state_pending) by discriminate.
  destruct (proj1 (@fireAllOps_drains_back_to_front Run.clock vb Run.start)
              Hstart Hstate) as (Htrace & _).
  rewrite Htrace. reflexivity.
Defined.

(** *** The waiter count *)

Section Waiters.

Context `{!ChkFlushBounds} `{!Clock}.

Lemma fireAllOps_keeps_numHpChks vb p :
  numHpChks (fireAllOps vb p).1.1 = numHpChks vb ∧
  shard (fireAllOps vb p).1.1 = shard vb.
Proof.
  unfold fireAllOps, fireAllOps_code.
  destruct (state vb), (Z.ltb 0 (pendingOpsStart vb)); done.
Qed.

(** X7. [getHighPriorityChkSize] is the length of the waiter list after
    every [addHighPriorityVBEntry] (which puts its waiter at the back of the
    list) and after every [notifyOnPersistence], whatever it was before;
    [notifyAllPendingConnsFailed] empties the list without storing its new
    size, so the count goes on reporting what it reported before the
    sweep. *)
Theorem waiter_count_and_list (id cookie idNum : Z) (isBySeqno kind : bool)
    (vb : t) (p : Process) :
  let added := addHighPriorityVBEntry id cookie isBySeqno vb p in
  let notified := notifyOnPersistence idNum kind vb p in
  let swept := (notifyAllPendingConnsFailed vb p).1.1 in
  getHighPriorityChkSize added.1 = Z.of_nat (length (hpChks added.1)) ∧
  (∃ start, hpChks added.1 = hpChks vb ++
      [{| hp_cookie := cookie; hp_id := id; hp_isBySeqno := isBySeqno;
          hp_start := start |}]) ∧
  getHighPriorityChkSize notified.1.1
    = Z.of_nat (length (hpChks notified.1.1)) ∧
  hpChks swept = [] ∧
  getHighPriorityChkSize swept = getHighPriorityChkSize vb.
Proof.
  cbv zeta. split; [done|]. split; [by eexists|]. split; [|split].
  - unfold notifyOnPersistence. by destruct (walk _ _ _).
  - by destruct (failed_sweep_trace 0 vb p) as (_ & _ & _ & _ & _ & ? & _).
  - unfold notifyAllPendingConnsFailed, getHighPriorityChkSize.
    destruct (walk failed_visit _ _) as [kept sw].
    cbn [pendingBGFetches set_hpChks set_shard].
    set (sw2 := failed_bgfetches (pendingBGFetches vb) sw).
    set (vb1 := set_pendingBGFetches []
                  (set_hpChks kept (set_shard (sw_shard sw) vb))).
    pose proof (proj1 (fireAllOps_keeps_numHpChks vb1 (proc sw2))) as Hkeep.
    destruct (fireAllOps vb1 (proc sw2)) as [[vb2 p2] fired].
    cbn [fst snd] in *. by rewrite Hkeep.
Qed.

(** *** The shard's count of high-priority requests *)

Lemma walk_shard (visit : HighPriorityVBEntry → Sweep → bool * Sweep)
    entries sw n c :
  (∀ entry sw, sw_shard (visit entry sw).2 =
     if (visit entry sw).1 then decr_highPriorityCount <$> sw_shard sw
     else sw_shard sw) →
  highPriorityCount <$> sw_shard sw = Some (wrap64 (c - Z.of_nat n)) →
  highPriorityCount <$> sw_shard (walk visit entries sw).2 =
  Some (wrap64 (c - Z.of_nat
          (n + (length entries - length (walk visit entries sw).1)))) ∧
  (length (walk visit entries sw).1 ≤ length entries)%nat.
Proof.
  intros Hvisit. revert sw n.
  induction entries as [|entry rest IH]; intros sw n Hsw.
  - simpl. split; [|done]. rewrite Hsw. do 2 f_equal. all: lia.
  - rewrite walk_cons. cbn [fst snd].
    pose proof (Hvisit entry sw) as Hstep.
    destruct ((visit entry sw).1) eqn:Herased.
    + assert (Hnext : highPriorityCount <$> sw_shard (visit entry sw).2
                      = Some (wrap64 (c - Z.of_nat (S n)))).
      { rewrite Hstep. destruct (sw_shard sw) as [[hc]|]; [|done].
        injection Hsw as ->. cbn. f_equal. unfold wrap64.
        rewrite Zminus_mod_idemp_l. f_equal. lia. }
      destruct (IH _ _ Hnext) as [-> Hle]. split; [|simpl; lia].
      do 2 f_equal. all: simpl length; lia.
    + rewrite <- Hstep in Hsw.
      destruct (IH _ _ Hsw) as [-> Hle]. split; [|simpl; lia].
      do 2 f_equal. all: simpl length; lia.
Qed.

Lemma persistence_visit_shard idNum isBySeqno entry sw :
  sw_shard (persistence_visit idNum isBySeqno entry sw).2 =
  if (persistence_visit idNum isBySeqno entry sw).1
  then decr_highPriorityCount <$> sw_shard sw else sw_shard sw.
Proof.
  unfold persistence_visit.
  destruct (negb _); [done|]. cbv zeta. cbn [read_clock].
  destruct (Z.leb _ _); [done|]. by destruct (Z.ltb _ _).
Qed.

(** X8. The shard's [highPriorityCount] goes up by one with every
    registration and down by one with every waiter a sweep removes: after
    [notifyOnPersistence] it is lower by the number of waiters that left the
    list, after [notifyAllPendingConnsFailed] by the length of the list
    (in 64-bit arithmetic). *)
Theorem shard_counts_removed_waiters (id cookie idNum : Z)
    (isBySeqno kind : bool) (vb : t) (p : Process) (s : KVShard) :
  shard vb = Some s → is_u64 (highPriorityCount s) →
  let added := addHighPriorityVBEntry id cookie isBySeqno vb p in
  let notified := (notifyOnPersistence idNum kind vb p).1.1 in
  let swept := (notifyAllPendingConnsFailed vb p).1.1 in
  (highPriorityCount <$> shard added.1)
    = Some (wrap64 (highPriorityCount s + 1)) ∧
  (length (hpChks notified) ≤ length (hpChks vb))%nat ∧
  (highPriorityCount <$> shard notified)
    = Some (wrap64 (highPriorityCount s
                    - Z.of_nat (length (hpChks vb) - length (hpChks notified)))) ∧
  (highPriorityCount <$> shard swept)
    = Some (wrap64 (highPriorityCount s - Z.of_nat (length (hpChks vb)))).
Proof.
  intros Hshard Hu64. cbv zeta.
  split; [by (cbn; rewrite Hshard)|].
  assert (Hwalk : ∀ visit : HighPriorityVBEntry → Sweep → bool * Sweep,
    (∀ entry sw, sw_shard (visit entry sw).2 =
       if (visit entry sw).1 then decr_highPriorityCount <$> sw_shard sw
       else sw_shard sw) →
    (length (walk visit (hpChks vb)
      {| toNotify := ∅; calls := []; sw_shard := shard vb; proc := p |}).1
     ≤ length (hpChks vb))%nat ∧
    (highPriorityCount <$> sw_shard (walk visit (hpChks vb)
      {| toNotify := ∅; calls := []; sw_shard := shard vb; proc := p |}).2) =
    Some (wrap64 (highPriorityCount s
      - Z.of_nat (length (hpChks vb) - length (walk visit (hpChks vb)
      {| toNotify := ∅; calls := []; sw_shard := shard vb; proc := p |}).1)))).
  { intros visit Hvisit.
    destruct (walk_shard visit (hpChks vb)
      {| toNotify := ∅; calls := []; sw_shard := shard vb; proc := p |}
      0 (highPriorityCount s) Hvisit) as [Hcount Hle].
    - cbn [sw_shard]. rewrite Hshard. cbn. f_equal.
      rewrite Z.sub_0_r. symmetry. by apply wrap64_small.
    - split; [done|]. rewrite Hcount. by do 2 f_equal. }
  destruct (Hwalk _ (persistence_visit_shard idNum kind)) as [Hle Hnotified].
  destruct (Hwalk failed_visit (λ _ _, eq_refl)) as [_ Hswept].
  rewrite walk_failed_erases in Hswept.
  split; [|split].
  - unfold notifyOnPersistence. by destruct (walk _ _ _).
  - unfold notifyOnPersistence.
    destruct (walk (persistence_visit idNum kind) _ _) as [kept sw].
    exact Hnotified.
  - unfold notifyAllPendingConnsFailed.
    destruct (walk failed_visit _ _) as [kept sw].
    cbn [pendingBGFetches set_hpChks set_shard].
    set (sw2 := failed_bgfetches (pendingBGFetches vb) sw).
    set (vb1 := set_pendingBGFetches []
                  (set_hpChks kept (set_shard (sw_shard sw) vb))).
    pose proof (proj2 (fireAllOps_keeps_numHpChks vb1 (proc sw2))) as Hkeep.
    destruct (fireAllOps vb1 (proc sw2)) as [[vb2 p2] fired].
    cbn [fst snd] in *. rewrite Hkeep. cbn [vb1 shard set_pendingBGFetches set_hpChks set_shard].
    rewrite Hswept. do 2 f_equal. all: simpl; lia.
Qed.

(** *** What a persistence sweep can and cannot do *)

Lemma walk_sublist (visit : HighPriorityVBEntry → Sweep → bool * Sweep)
    entries sw :
  sublist (walk visit entries sw).1 entries.
Proof.
  revert sw. induction entries as [|entry rest IH]; intros sw; [done|].
  rewrite walk_cons. cbn [fst].
  destruct ((visit entry sw).1);
    [by apply sublist_cons|by apply sublist_skip].
Qed.

Lemma walk_persistence_other_kind_kept idNum isBySeqno entries sw :
  filter (λ w, hp_isBySeqno w ≠ isBySeqno)
         (walk (persistence_visit idNum isBySeqno) entries sw).1
  = filter (λ w, hp_isBySeqno w ≠ isBySeqno) entries.
Proof.
  revert sw. induction entries as [|entry rest IH]; intros sw; [done|].
  rewrite walk_cons. cbn [fst].
  destruct (decide (hp_isBySeqno entry = isBySeqno)) as [Hkind|Hkind].
  - rewrite (filter_cons_False _ entry rest) by (intros Hne; by apply Hne).
    destruct ((persistence_visit idNum isBySeqno entry sw).1); [apply IH|].
    rewrite filter_cons_False by (intros Hne; by apply Hne). apply IH.
  - rewrite persistence_visit_other_kind by done. cbn [fst snd].
    rewrite !filter_cons_True by done. f_equal. apply IH.
Qed.

Lemma persistence_visit_lookup_inv idNum isBySeqno entry sw c code :
  toNotify (persistence_visit idNum isBySeqno entry sw).2 !! c = Some code →
  toNotify sw !! c = Some code ∨
  (hp_cookie entry = c ∧ hp_isBySeqno entry = isBySeqno ∧
   (code = ENGINE_SUCCESS ∨ code = ENGINE_TMPFAIL)).
Proof.
  unfold persistence_visit.
  destruct (eqb isBySeqno (hp_isBySeqno entry)) eqn:Hkind; [|by left].
  apply eqb_prop in Hkind. cbn [negb]. cbv zeta. cbn [read_clock].
  destruct (Z.leb _ _); [|destruct (Z.ltb _ _); [|by left]].
  all: cbn [snd toNotify]; rewrite lookup_insert.
  all: case_decide; [|by left].
  all: intros [= <-]; right; auto.
Qed.

Lemma walk_persistence_lookup_inv idNum isBySeqno entries sw c code :
  toNotify (walk (persistence_visit idNum isBySeqno) entries sw).2 !! c
    = Some code →
  toNotify sw !! c = Some code ∨
  ((code = ENGINE_SUCCESS ∨ code = ENGINE_TMPFAIL) ∧
   ∃ w, w ∈ entries ∧ hp_cookie w = c ∧ hp_isBySeqno w = isBySeqno).
Proof.
  revert sw. induction entries as [|entry rest IH]; intros sw; [by left|].
  rewrite walk_cons. cbn [snd].
  intros [Hin|[Hcode (w & Hw & Hc & Hk)]]%IH.
  - apply persistence_visit_lookup_inv in Hin as [?|(Hc & Hk & Hcode)];
      [by left|right].
    split; [done|]. exists entry. split; [by left|done].
  - right. split; [done|]. exists w. split; [by right|done].
Qed.

(** X9. Whatever the waiters and the clock, [notifyOnPersistence] only
    removes waiters (those left keep their order), keeps every waiter of
    the other kind, tells no cookie more than one status, tells nothing but
    Success and TempFail, and tells only cookies that have a waiter of the
    kind that was asked for. *)
Theorem persistence_sweep_is_safe (idNum : Z) (kind : bool) (vb : t)
    (p : Process) :
  let after := notifyOnPersistence idNum kind vb p in
  sublist (hpChks after.1.1) (hpChks vb) ∧
  filter (λ w, hp_isBySeqno w ≠ kind) (hpChks after.1.1)
    = filter (λ w, hp_isBySeqno w ≠ kind) (hpChks vb) ∧
  (∀ c, notifications c after.2 = [] ∨
        notifications c after.2 = [ENGINE_SUCCESS] ∨
        notifications c after.2 = [ENGINE_TMPFAIL]) ∧
  (∀ c, notifications c after.2 ≠ [] →
        ∃ w, w ∈ hpChks vb ∧ hp_cookie w = c ∧ hp_isBySeqno w = kind).
Proof.
  cbv zeta.
  destruct (notifyOnPersistence_unfold idNum kind vb p) as [-> Htrace].
  assert (Htold : ∀ c,
    notifications c (notifyOnPersistence idNum kind vb p).2 =
    match toNotify (walk (persistence_visit idNum kind) (hpChks vb)
            {| toNotify := ∅; calls := []; sw_shard := shard vb;
               proc := p |}).2 !! c with
    | Some code => [code]
    | None => []
    end).
  { intros c. rewrite Htrace, notifications_app, notifications_notify_all.
    by rewrite (walk_calls_silent _ _ (persistence_visit_silent _ _ _)). }
  split; [apply walk_sublist|]. split; [apply walk_persistence_other_kind_kept|].
  split.
  - intros c. rewrite Htold.
    destruct (toNotify _ !! c) as [code|] eqn:Hlook; [|by left].
    apply walk_persistence_lookup_inv in Hlook as [Hin|[[-> | ->] _]];
      [by (cbn [toNotify] in Hin; rewrite lookup_empty in Hin)| |]; auto.
  - intros c. rewrite Htold.
    destruct (toNotify _ !! c) as [code|] eqn:Hlook; [intros _|done].
    by apply walk_persistence_lookup_inv in Hlook as [Hin|[_ ?]];
      [cbn [toNotify] in Hin; rewrite lookup_empty in Hin|].
Qed.

(** *** The flush timeout under the sweeps *)

Lemma adjust_in_bounds wall_time p :
  MIN_CHK_FLUSH_TIMEOUT ≤ MAX_CHK_FLUSH_TIMEOUT →
  MIN_CHK_FLUSH_TIMEOUT
    ≤ chkFlushTimeout (adjustCheckpointFlushTimeout wall_time p)
    ≤ MAX_CHK_FLUSH_TIMEOUT ∧
  Z.min wall_time MAX_CHK_FLUSH_TIMEOUT
    ≤ chkFlushTimeout (adjustCheckpointFlushTimeout wall_time p).
Proof.
  intros Hbounds. unfold adjustCheckpointFlushTimeout. cbn [chkFlushTimeout].
  set (middle := (MIN_CHK_FLUSH_TIMEOUT + MAX_CHK_FLUSH_TIMEOUT) / 2).
  assert (MIN_CHK_FLUSH_TIMEOUT ≤ middle ≤ MAX_CHK_FLUSH_TIMEOUT).
  { subst middle. split.
    - apply Z.div_le_lower_bound; lia.
    - apply Z.div_le_upper_bound; lia. }
  destruct (Z.leb_spec wall_time MIN_CHK_FLUSH_TIMEOUT);
    [|destruct (Z.leb_spec wall_time middle)]; lia.
Qed.

Lemma persistence_visit_unreached_timeout idNum isBySeqno entry sw :
  MIN_CHK_FLUSH_TIMEOUT ≤ MAX_CHK_FLUSH_TIMEOUT →
  chkFlushTimeout (proc sw) ≤ MAX_CHK_FLUSH_TIMEOUT →
  (hp_isBySeqno entry = isBySeqno → idNum < hp_id entry) →
  chkFlushTimeout (proc sw)
    ≤ chkFlushTimeout (proc (persistence_visit idNum isBySeqno entry sw).2)
    ≤ MAX_CHK_FLUSH_TIMEOUT.
Proof.
  intros Hbounds Hmax Hunreached. unfold persistence_visit.
  destruct (eqb isBySeqno (hp_isBySeqno entry)) eqn:Hkind; [|cbn; lia].
  apply eqb_prop in Hkind. cbn [negb]. cbv zeta. cbn [read_clock].
  rewrite (proj2 (Z.leb_gt _ _)) by auto.
  unfold getCheckpointFlushTimeout. cbn [chkFlushTimeout].
  destruct (Z.ltb_spec (chkFlushTimeout (proc sw))
              (wrap64 (gethrtime (hrtime_calls (proc sw)) - hp_start entry)
               / 1000000000)) as [Hlate|Hnot]; cbn [snd proc]; [|cbn; lia].
  match goal with
  | |- context [adjustCheckpointFlushTimeout ?w ?q] =>
      destruct (adjust_in_bounds w q Hbounds) as [Hin Hge]
  end.
  lia.
Qed.

(** X10. A [notifyOnPersistence] that reaches the target of no waiter never
    shortens the flush timeout: with ordered bounds and a timeout that is
    at most the maximum, the timeout after the sweep is at least the
    timeout before it, and still at most the maximum. *)
Theorem unresolved_sweep_never_shortens_timeout (idNum : Z) (kind : bool)
    (vb : t) (p : Process) :
  MIN_CHK_FLUSH_TIMEOUT ≤ MAX_CHK_FLUSH_TIMEOUT →
  chkFlushTimeout p ≤ MAX_CHK_FLUSH_TIMEOUT →
  (∀ w, w ∈ hpChks vb → hp_isBySeqno w = kind → idNum < hp_id w) →
  chkFlushTimeout p
    ≤ chkFlushTimeout (notifyOnPersistence idNum kind vb p).1.2
    ≤ MAX_CHK_FLUSH_TIMEOUT.
Proof.
  intros Hbounds Hmax Hunreached.
  assert (Hwalk : ∀ entries sw,
    chkFlushTimeout (proc sw) ≤ MAX_CHK_FLUSH_TIMEOUT →
    (∀ w, w ∈ entries → hp_isBySeqno w = kind → idNum < hp_id w) →
    chkFlushTimeout (proc sw)
      ≤ chkFlushTimeout
          (proc (walk (persistence_visit idNum kind) entries sw).2)
      ≤ MAX_CHK_FLUSH_TIMEOUT).
  { induction entries as [|entry rest IH]; intros sw Hsw Hall; [simpl; lia|].
    rewrite walk_cons. cbn [snd].
    destruct (persistence_visit_unreached_timeout idNum kind entry sw
                Hbounds Hsw) as [Hup Hstill].
    { apply Hall. by left. }
    destruct (IH (persistence_visit idNum kind entry sw).2 Hstill) as [? ?].
    { intros w Hw. apply Hall. by right. }
    lia. }
  unfold notifyOnPersistence.
  specialize (Hwalk (hpChks vb)
    {| toNotify := ∅; calls := []; sw_shard := shard vb; proc := p |}
    Hmax Hunreached).
  destruct (walk _ _ _) as [kept sw]. exact Hwalk.
Qed.

(** X11. The timeout that [adjustCheckpointFlushTimeout] sets is one of the
    three bands, grows with the wall time (for ordered bounds), and forgets
    every earlier adjustment. *)
Theorem timeout_grows_with_wall_time (w1 w2 : Z) (p p' : Process) :
  MIN_CHK_FLUSH_TIMEOUT ≤ MAX_CHK_FLUSH_TIMEOUT → w1 ≤ w2 →
  let middle := (MIN_CHK_FLUSH_TIMEOUT + MAX_CHK_FLUSH_TIMEOUT) / 2 in
  let after1 := chkFlushTimeout (adjustCheckpointFlushTimeout w1 p) in
  (after1 = MIN_CHK_FLUSH_TIMEOUT ∨ after1 = middle ∨
   after1 = MAX_CHK_FLUSH_TIMEOUT) ∧
  after1 ≤ chkFlushTimeout (adjustCheckpointFlushTimeout w2 p') ∧
  adjustCheckpointFlushTimeout w2 (adjustCheckpointFlushTimeout w1 p)
    = adjustCheckpointFlushTimeout w2 p.
Proof.
  intros Hbounds Hw. cbv zeta.
  unfold adjustCheckpointFlushTimeout. cbn [chkFlushTimeout hrtime_calls].
  set (middle := (MIN_CHK_FLUSH_TIMEOUT + MAX_CHK_FLUSH_TIMEOUT) / 2).
  assert (MIN_CHK_FLUSH_TIMEOUT ≤ middle ≤ MAX_CHK_FLUSH_TIMEOUT).
  { subst middle. split.
    - apply Z.div_le_lower_bound; lia.
    - apply Z.div_le_upper_bound; lia. }
  split; [|split; [|done]].
  - destruct (Z.leb w1 MIN_CHK_FLUSH_TIMEOUT); [by left|].
    destruct (Z.leb w1 middle); auto.
  - destruct (Z.leb_spec w1 MIN_CHK_FLUSH_TIMEOUT),
             (Z.leb_spec w2 MIN_CHK_FLUSH_TIMEOUT),
             (Z.leb_spec w1 middle), (Z.leb_spec w2 middle); lia.
Qed.

(** *** Background fetches *)





Lemma queue_fetch_consistent fetch ctx :
  (bgfetched_list ctx ≠ [] →
   isMetaOnly ctx = forallb bg_metaDataOnly (bgfetched_list ctx)) →
  isMetaOnly (queue_fetch fetch ctx)
  = forallb bg_metaDataOnly (bgfetched_list (queue_fetch fetch ctx)).
Proof.
  intros Hctx. unfold queue_fetch. cbn [isMetaOnly bgfetched_list].
  rewrite forallb_app. cbn [forallb]. rewrite andb_true_r.
  destruct (bgfetched_list ctx) as [|item items] eqn:Hlist.
  - cbn. by destruct (bg_metaDataOnly fetch).
  - rewrite Hctx by done. destruct (bg_metaDataOnly fetch); cbn.
    + by rewrite andb_true_r.
    + by rewrite andb_false_r.
Qed.

(** X13. [queueBGFetchItem] keeps the meta-only flags right: if every
    parked key has a non-empty list of fetches whose context is meta-only
    exactly when all of them are, the same holds after the call. *)
Theorem queueBGFetchItem_keeps_meta_flags (key : DocKey)
    (fetch : VBucketBGFetchItem) (vb : t) :
  meta_flags_right (pendingBGFetches vb) →
  meta_flags_right (pendingBGFetches (queueBGFetchItem key fetch vb).1).
Proof.
  unfold queueBGFetchItem, meta_flags_right.
  cbn [fst pendingBGFetches set_pendingBGFetches].
  induction 1 as [|[k ctx] rest [Hnonempty Hflag] Hrest IH];
    cbn [queue_at fst snd].
  - constructor; [|done]. cbn [snd]. split.
    + unfold queue_fetch. cbn. done.
    + by apply queue_fetch_consistent.
  - case_bool_decide.
    + constructor; [|done]. cbn [snd]. split.
      * unfold queue_fetch. cbn. by destruct (bgfetched_list ctx).
      * apply queue_fetch_consistent. by intros _.
    + by constructor.
Qed.

(** X14. [getBGFetchItems] hands the whole map to the caller and leaves
    the vBucket with none: the next fetch queued is alone in the map, and a
    [notifyAllPendingConnsFailed] after the hand-over tells nothing to a
    cookie that is neither a high-priority waiter nor a pending op. *)
Theorem getBGFetchItems_hands_over (vb : t) (p : Process) (key : DocKey)
    (fetch : VBucketBGFetchItem) :
  let taken := getBGFetchItems vb in
  taken.1 = pendingBGFetches vb ∧
  bg_cookies taken.2 = [] ∧
  (queueBGFetchItem key fetch taken.2).2 = 1 ∧
  (∀ c, c ∉ hp_cookies vb → c ∉ pendingOps vb →
        notifications c (notifyAllPendingConnsFailed taken.2 p).2 = []).
Proof.
  cbv zeta. split; [done|]. split; [done|]. split; [done|].
  intros c Hhp Hops.
  destruct (failed_sweep_trace c (getBGFetchItems vb).2 p)
    as (vb' & p' & Hsame & _ & _ & _ & _ & ->).
  rewrite decide_False by (cbn; apply not_elem_of_nil).
  rewrite decide_False by done.
  by rewrite fireAllOps_absent by by rewrite Hsame.
Qed.

End Waiters.

(** *** The statements on concrete runs *)

Lemma shard_counts_removed_waiters_witness :
  highPriorityCount <$>
    shard (@notifyOnPersistence Run.bounds Run.clock 5 true
             Run.two_waiters.1 Run.two_waiters.2).1.1 = Some 1.
Proof.
  assert (Hshard : shard Run.two_waiters.1 = Some {| highPriorityCount := 2 |})
    by (vm_compute; reflexivity).
  assert (Hu64 : is_u64 (highPriorityCount {| highPriorityCount := 2 |}))
    by (unfold is_u64; simpl; lia).
  destruct (@shard_counts_removed_waiters Run.bounds Run.clock 0 0 5 true true
              Run.two_waiters.1 Run.two_waiters.2 _ Hshard Hu64)
    as (_ & _ & Hnotified & _).
  rewrite Hnotified. vm_compute. reflexivity.
Defined.

Lemma unresolved_sweep_never_shortens_timeout_witness :
  10 ≤ chkFlushTimeout
         (@notifyOnPersistence Run.bounds Run.clock 0 true
            Run.two_waiters.1 Run.two_waiters.2).1.2 ≤ 30.
Proof.
  apply (@unresolved_sweep_never_shortens_timeout Run.bounds Run.clock 0 true
           Run.two_waiters.1 Run.two_waiters.2).
  - vm_compute. discriminate.
  - vm_compute. discriminate.
  - intros w Hw%list_elem_of_In. vm_compute in Hw.
    destruct Hw as [<-|[<-|[]]]; [intros _; reflexivity|discriminate].
Defined.

Lemma timeout_grows_with_wall_time_witness :
  chkFlushTimeout (@adjustCheckpointFlushTimeout Run.bounds 5 Run.start)
  ≤ chkFlushTimeout (@adjustCheckpointFlushTimeout Run.bounds 25 Run.start).
Proof.
  assert (Hb : @MIN_CHK_FLUSH_TIMEOUT Run.bounds ≤ @MAX_CHK_FLUSH_TIMEOUT Run.bounds)
    by (vm_compute; discriminate).
  assert (Hw : 5 ≤ 25) by lia.
  exact (proj1 (proj2 (@timeout_grows_with_wall_time Run.bounds 5 25
                         Run.start Run.start Hb Hw))).
Defined.

Lemma queueBGFetchItem_keeps_meta_flags_witness :
  meta_flags_right
    (pendingBGFetches
       (queueBGFetchItem "k" {| bg_cookie := 9; bg_metaDataOnly := true |}
          Run.waiter_and_fetcher.1).1).
Proof.
  apply queueBGFetchItem_keeps_meta_flags.
  vm_compute. repeat constructor. discriminate.
Defined.

End SweepFacts.

Module StatsFacts.
Import VBucket VBucketOps VBucketFacts.

(** *** Queue statistics *)

Lemma decr_loop_back v k :
  0 ≤ v → 0 ≤ k → v + k < 2 ^ 64 →
  decr_loop [] (wrap64 (v + k)) k = v.
Proof.
  intros Hv Hk Hfit.
  rewrite wrap64_small by (unfold is_u64; lia).
  rewrite decr_loop_alone by (unfold is_u64; lia).
  rewrite bool_decide_true by lia. lia.
Qed.

(** X15. Flushing an item undoes what queueing it did to the dirty-queue
    memory, age and pending-write counters, as long as the additions do not
    overflow 64 bits; the fill and drain counters have each moved up by
    one. *)
Theorem flushing_undoes_queueing `{!Layout} (queuedTime itemBytes : Z)
    (vb : t) (qs : QueueStats) :
  0 ≤ dirtyQueueMem vb → 0 ≤ sizeof_Item →
  dirtyQueueMem vb + sizeof_Item < 2 ^ 64 →
  0 ≤ dirtyQueueAge vb → 0 ≤ queuedTime →
  dirtyQueueAge vb + queuedTime < 2 ^ 64 →
  0 ≤ dirtyQueuePendingWrites vb → 0 ≤ itemBytes →
  dirtyQueuePendingWrites vb + itemBytes < 2 ^ 64 →
  let queued := doStatsForQueueing queuedTime itemBytes vb qs in
  let flushed := doStatsForFlushing queuedTime itemBytes queued.1 queued.2 in
  dirtyQueueMem flushed.1 = dirtyQueueMem vb ∧
  dirtyQueueAge flushed.1 = dirtyQueueAge vb ∧
  dirtyQueuePendingWrites flushed.1 = dirtyQueuePendingWrites vb ∧
  dirtyQueueFill flushed.2 = wrap64 (dirtyQueueFill qs + 1) ∧
  dirtyQueueDrain flushed.2 = wrap64 (dirtyQueueDrain qs + 1).
Proof.
  intros Hm Hs Hms Ha Hq Haq Hp Hb Hpb. cbv zeta.
  unfold doStatsForFlushing, doStatsForQueueing,
    decrDirtyQueueMem, decrDirtyQueueAge, decrDirtyQueuePendingWrites,
    decrDirtyQueueMem_among, decrDirtyQueueAge_among,
    decrDirtyQueuePendingWrites_among.
  cbn [fst snd dirtyQueueMem dirtyQueueAge dirtyQueuePendingWrites
       set_dirtyQueueMem set_dirtyQueueAge set_dirtyQueuePendingWrites
       dirtyQueueFill dirtyQueueDrain].
  by rewrite !decr_loop_back.
Qed.

Lemma flushing_undoes_queueing_witness :
  let queued := @doStatsForQueueing Sample.layout 7 300 Run.fresh
                  Sample.no_stats in
  let flushed := @doStatsForFlushing Sample.layout 7 300 queued.1 queued.2 in
  dirtyQueueMem queued.1 = 120 ∧ dirtyQueueMem flushed.1 = 0.
Proof.
  split; [reflexivity|].
  refine (proj1 (@flushing_undoes_queueing Sample.layout 7 300 Run.fresh
                   Sample.no_stats _ _ _ _ _ _ _ _ _)); vm_compute;
    congruence.
Defined.

Lemma decr_loop_zero k : 0 ≤ k → decr_loop [] 0 k = 0.
Proof.
  intros Hk. cbn [decr_loop]. rewrite compare_exchange_same. cbn [snd].
  destruct (Z.ltb_spec 0 k); [done|]. by replace k with 0 by lia.
Qed.

(** X16. After [resetStats], flushing any number of items leaves the
    dirty-queue memory, age and pending-write counters at zero: draining
    more than was queued never wraps them. *)
Theorem flushing_after_reset_stays_at_zero `{!Layout}
    (items : list (Z * Z)) (vb : t) (qs : QueueStats) :
  0 ≤ sizeof_Item → Forall (λ item, 0 ≤ item.1 ∧ 0 ≤ item.2) items →
  let flushed :=
    foldl (λ st item, doStatsForFlushing item.1 item.2 st.1 st.2)
          (resetStats vb qs) items in
  dirtyQueueMem flushed.1 = 0 ∧ dirtyQueueAge flushed.1 = 0 ∧
  dirtyQueuePendingWrites flushed.1 = 0.
Proof.
  intros Hsize Hitems. cbv zeta.
  assert (Hgen : ∀ st : t * QueueStats,
    dirtyQueueMem st.1 = 0 ∧ dirtyQueueAge st.1 = 0 ∧
    dirtyQueuePendingWrites st.1 = 0 →
    let flushed :=
      foldl (λ st item, doStatsForFlushing item.1 item.2 st.1 st.2)
            st items in
    dirtyQueueMem flushed.1 = 0 ∧ dirtyQueueAge flushed.1 = 0 ∧
    dirtyQueuePendingWrites flushed.1 = 0).
  { induction Hitems as [|[queuedTime itemBytes] rest [Hq Hb] _ IH];
      intros st Hst; [done|].
    cbn [foldl]. apply IH.
    destruct Hst as (Hmem & Hage & Hpw).
    unfold doStatsForFlushing,
      decrDirtyQueueMem, decrDirtyQueueAge, decrDirtyQueuePendingWrites,
      decrDirtyQueueMem_among, decrDirtyQueueAge_among,
      decrDirtyQueuePendingWrites_among.
    cbn [fst snd dirtyQueueMem dirtyQueueAge dirtyQueuePendingWrites
         set_dirtyQueueMem set_dirtyQueueAge set_dirtyQueuePendingWrites].
    rewrite Hmem, Hage, Hpw. by rewrite !decr_loop_zero. }
  by apply Hgen.
Qed.

Lemma flushing_after_reset_stays_at_zero_witness :
  dirtyQueueMem
    (foldl (λ st item,
              @doStatsForFlushing Sample.layout item.1 item.2 st.1 st.2)
       (resetStats (set_dirtyQueueMem 500 Run.fresh) Sample.no_stats)
       [(7, 300); (9, 40)]).1 = 0.
Proof.
  refine (proj1 (@flushing_after_reset_stays_at_zero Sample.layout
                   [(7, 300); (9, 40)] (set_dirtyQueueMem 500 Run.fresh)
                   Sample.no_stats _ _)).
  - vm_compute. discriminate.
  - repeat constructor; simpl; lia.
Defined.

(** X17. The metadata-on-disk counter is not saturating: a decrement
    undoes the increment for the same key in 64-bit arithmetic whatever the
    counter held, and a decrement larger than the counter wraps it around
    instead of stopping at zero. *)
Theorem metaDataDisk_wraps `{!Layout} (keySize : Z) (qs : QueueStats) :
  is_u64 (metaDataDisk qs) →
  let amount := wrap64 (keySize + sizeof_ItemMetaData) in
  metaDataDisk (decrMetaDataDisk keySize (incrMetaDataDisk keySize qs))
    = metaDataDisk qs ∧
  (metaDataDisk qs < amount →
   metaDataDisk (decrMetaDataDisk keySize qs)
     = metaDataDisk qs - amount + 2 ^ 64).
Proof.
  intros Hu64. cbv zeta. unfold decrMetaDataDisk, incrMetaDataDisk.
  cbn [metaDataDisk set_metaDataDisk].
  set (amount := wrap64 (keySize + sizeof_ItemMetaData)).
  assert (Hamount : 0 ≤ amount < 2 ^ 64) by (apply Z.mod_pos_bound; lia).
  unfold is_u64 in Hu64. split.
  - unfold wrap64 at 1 2. rewrite Zminus_mod_idemp_l.
    replace (metaDataDisk qs + amount - amount) with (metaDataDisk qs) by lia.
    by apply Z.mod_small.
  - intros Hless. unfold wrap64 at 1.
    symmetry. apply (Z.mod_unique_pos _ _ (-1)); lia.
Qed.

Lemma metaDataDisk_wraps_witness :
  metaDataDisk (@decrMetaDataDisk Sample.layout 6 Sample.no_stats)
  = 2 ^ 64 - 30.
Proof.
  assert (Hu64 : is_u64 (metaDataDisk Sample.no_stats))
    by (unfold is_u64; simpl; lia).
  rewrite (proj2 (@metaDataDisk_wraps Sample.layout 6 Sample.no_stats Hu64));
    [reflexivity|]. vm_compute. reflexivity.
Defined.

(** X18. Under full eviction the number of non-resident items is never
    negative and never above the number of items; when the hash table's
    counters fit together it is the number of items less those that are in
    memory and resident. *)
Theorem non_resident_items_under_full_eviction (ht : HashTable) :
  is_u64 (getNumItems_ht ht) → is_u64 (getNumInMemoryItems ht) →
  is_u64 (getNumInMemoryNonResItems ht) →
  let n := getNumNonResidentItems FULL_EVICTION ht in
  0 ≤ n ≤ getNumItems FULL_EVICTION ht ∧
  (getNumInMemoryNonResItems ht ≤ getNumInMemoryItems ht →
   getNumInMemoryItems ht - getNumInMemoryNonResItems ht ≤ getNumItems_ht ht →
   n = getNumItems_ht ht
       - (getNumInMemoryItems ht - getNumInMemoryNonResItems ht)).
Proof.
  unfold is_u64. intros Hitems Hmem Hnonres. cbv zeta.
  unfold getNumNonResidentItems, getNumItems.
  set (num_res := wrap64 (getNumInMemoryItems ht - getNumInMemoryNonResItems ht)).
  assert (Hres : 0 ≤ num_res < 2 ^ 64) by (apply Z.mod_pos_bound; lia).
  split.
  - destruct (Z.ltb_spec num_res (getNumItems_ht ht)); [|lia].
    rewrite wrap64_small by (unfold is_u64; lia). lia.
  - intros Hle Hfit. subst num_res.
    rewrite (wrap64_small (_ - _)) by (unfold is_u64; lia).
    destruct (Z.ltb_spec
                (getNumInMemoryItems ht - getNumInMemoryNonResItems ht)
                (getNumItems_ht ht)); [|lia].
    apply wrap64_small. unfold is_u64. lia.
Qed.

Lemma non_resident_items_under_full_eviction_witness :
  getNumNonResidentItems FULL_EVICTION
    {| getNumItems_ht := 10; getNumInMemoryItems := 4;
       getNumInMemoryNonResItems := 1 |} = 7.
Proof.
  refine (proj2 (non_resident_items_under_full_eviction
    {| getNumItems_ht := 10; getNumInMemoryItems := 4;
       getNumInMemoryNonResItems := 1 |} _ _ _) _ _);
    unfold is_u64; simpl; lia.
Defined.

End StatsFacts.

Module FilterLifecycle.
Import VBucket VBucketOps.

(** *** The bloom filter pair through a compaction *)

Lemma swapFilter_no_temp vb : tempFilter vb = None → swapFilter vb = vb.
Proof.
  intros Htemp. unfold swapFilter. rewrite Htemp.
  destruct (bFilter vb); by rewrite Htemp.
Qed.

Lemma swapFilter_temp vb temp :
  tempFilter vb = Some temp →
  bFilter (swapFilter vb) =
    (if bool_decide (getStatus temp = BFILTER_COMPACTING) ||
        bool_decide (getStatus temp = BFILTER_ENABLED)
     then Some (setStatus BFILTER_ENABLED temp) else None) ∧
  tempFilter (swapFilter vb) = None.
Proof.
  intros Htemp. unfold swapFilter. rewrite Htemp.
  destruct (bFilter vb) eqn:Hmain; cbn [tempFilter set_bFilter];
    rewrite Htemp; destruct (_ || _); cbn; rewrite ?Hmain; by split.
Qed.

(** X19. [swapFilter] always leaves the temp slot empty and no temp filter
    available, doing it twice is doing it once, and without a temp filter
    it changes nothing. *)
Theorem swapFilter_settles (vb : t) :
  tempFilter (swapFilter vb) = None ∧
  isTempFilterAvailable (swapFilter vb) = false ∧
  swapFilter (swapFilter vb) = swapFilter vb ∧
  (tempFilter vb = None → swapFilter vb = vb).
Proof.
  assert (Hempty : tempFilter (swapFilter vb) = None).
  { destruct (tempFilter vb) as [temp|] eqn:Htemp.
    - by destruct (swapFilter_temp vb temp Htemp).
    - by rewrite swapFilter_no_temp. }
  split; [done|]. split; [|split].
  - unfold isTempFilterAvailable. by rewrite Hempty.
  - by apply swapFilter_no_temp.
  - apply swapFilter_no_temp.
Qed.

Section Lifecycle.

Context `{!BloomFilterOps}.

(** X20. [createFilter] never replaces a filter: with a main or a temp
    filter in place it changes nothing, so a second call is without effect;
    on a vBucket with neither it installs an enabled main filter and no
    temp filter. *)
Theorem createFilter_never_replaces (key_count key_count' : Z)
    (p p' : probability) (vb : t) :
  (bFilter vb ≠ None ∨ tempFilter vb ≠ None →
   createFilter key_count p vb = vb) ∧
  createFilter key_count' p' (createFilter key_count p vb)
    = createFilter key_count p vb ∧
  (bFilter vb = None → tempFilter vb = None →
   bFilter (createFilter key_count p vb)
     = Some (BloomFilter_new key_count p BFILTER_ENABLED) ∧
   tempFilter (createFilter key_count p vb) = None).
Proof.
  unfold createFilter. split; [|split].
  - intros [Hmain|Htemp]; destruct (bFilter vb), (tempFilter vb); done.
  - destruct (bFilter vb) eqn:Hmain, (tempFilter vb) eqn:Htemp;
      cbn [bFilter tempFilter set_bFilter]; by rewrite ?Hmain, ?Htemp.
  - intros Hmain Htemp. rewrite Hmain, Htemp. cbn. by rewrite Htemp.
Qed.

Lemma add_reaches_temp (write : bool * DocKey) (vb : t) :
  tempFilter (add_during_compaction vb write)
  = addKey write.2 <$> tempFilter vb.
Proof.
  unfold add_during_compaction, addToFilter, addToTempFilter.
  destruct write.1, (bFilter vb) eqn:Hmain, (tempFilter vb) eqn:Htemp;
    cbn [tempFilter set_bFilter set_tempFilter]; by rewrite ?Htemp.
Qed.

Lemma adds_reach_temp (writes : list (bool * DocKey)) (vb : t) :
  tempFilter (foldl add_during_compaction vb writes) =
  (λ f, foldl (λ f write, addKey write.2 f) f writes) <$> tempFilter vb.
Proof.
  revert vb. induction writes as [|write writes IH]; intros vb.
  - cbn. by destruct (tempFilter vb).
  - cbn [foldl]. rewrite IH, add_reaches_temp.
    by destruct (tempFilter vb).
Qed.

Lemma foldl_addKey_status (writes : list (bool * DocKey)) f :
  (∀ key f, status (addKey key f) = status f) →
  status (foldl (λ f write, addKey write.2 f) f writes) = status f.
Proof.
  intros Hkeep. revert f.
  induction writes as [|w writes IH]; intros f; [done|].
  cbn [foldl]. by rewrite IH, Hkeep.
Qed.

(** X21. A compaction replaces the main filter by one built from scratch:
    after [initTempFilter], any writes through [addToFilter] and
    [addToTempFilter], and [swapFilter], the main filter is the new filter
    with exactly the keys written during the compaction, enabled, and the
    temp slot is empty. (The constructor is assumed to set the status it is
    given and [addKey] to leave the status alone.) *)
Theorem compaction_installs_the_temp_filter (key_count : Z) (p : probability)
    (writes : list (bool * DocKey)) (vb : t) :
  (∀ n q s, status (BloomFilter_new n q s) = s) →
  (∀ key f, status (addKey key f) = status f) →
  let compacted :=
    swapFilter (foldl add_during_compaction (initTempFilter key_count p vb)
                  writes) in
  bFilter compacted =
    Some (setStatus BFILTER_ENABLED
            (foldl (λ f write, addKey write.2 f)
               (BloomFilter_new key_count p BFILTER_COMPACTING) writes)) ∧
  tempFilter compacted = None.
Proof.
  intros Hnew Hkeep. cbv zeta.
  assert (Htemp : tempFilter (initTempFilter key_count p vb)
                  = Some (BloomFilter_new key_count p BFILTER_COMPACTING)).
  { unfold initTempFilter. cbn [bFilter set_tempFilter].
    by destruct (bFilter vb). }
  pose proof (adds_reach_temp writes (initTempFilter key_count p vb)) as Hadds.
  rewrite Htemp in Hadds. cbn [fmap option_fmap option_map] in Hadds.
  destruct (swapFilter_temp _ _ Hadds) as [-> ->]. split; [|done].
  unfold getStatus. rewrite foldl_addKey_status, Hnew by done. done.
Qed.

(** X22. Disabling the filters while a compaction runs makes [swapFilter]
    drop both: after [initTempFilter], a [setFilterStatus] to a status that
    is neither compacting nor enabled, and [swapFilter], the vBucket has no
    filter, every probe lets the background fetch through and the status
    string says the filter does not exist. *)
Theorem disabling_during_compaction_drops_filters (key_count : Z)
    (p : probability) (to : bfilter_status_t)
    (maybeKeyExists : BloomFilter → DocKey → bool) (key : DocKey) (vb : t) :
  to ≠ BFILTER_COMPACTING → to ≠ BFILTER_ENABLED →
  let after := swapFilter (setFilterStatus to (initTempFilter key_count p vb)) in
  bFilter after = None ∧ tempFilter after = None ∧
  maybeKeyExistsInFilter maybeKeyExists key after = true ∧
  getFilterStatusString after = "DOESN'T EXIST".
Proof.
  intros Hc He. cbv zeta.
  assert (Htemp : tempFilter (setFilterStatus to (initTempFilter key_count p vb))
                  = Some (setStatus to
                            (BloomFilter_new key_count p BFILTER_COMPACTING))).
  { unfold setFilterStatus, initTempFilter.
    cbn [bFilter tempFilter set_tempFilter set_bFilter].
    by destruct (bFilter vb). }
  destruct (swapFilter_temp _ _ Htemp) as [Hmain Hnone].
  cbn [getStatus setStatus status] in Hmain.
  rewrite !bool_decide_false in Hmain by done. cbn [orb] in Hmain.
  unfold maybeKeyExistsInFilter, getFilterStatusString.
  by rewrite Hmain, Hnone.
Qed.

(** X23. After [clearFilter] the vBucket has no filter: every probe lets
    the background fetch through, adding a key does nothing, the filter
    size and key count read 0, and [createFilter] may install a filter
    again. *)
Theorem clearFilter_leaves_no_filter (key_count : Z) (p : probability)
    (maybeKeyExists : BloomFilter → DocKey → bool) (key : DocKey) (vb : t) :
  let cleared := clearFilter vb in
  bFilter cleared = None ∧ tempFilter cleared = None ∧
  maybeKeyExistsInFilter maybeKeyExists key cleared = true ∧
  addToFilter key cleared = cleared ∧
  getFilterSize cleared = 0 ∧ getNumOfKeysInFilter cleared = 0 ∧
  bFilter (createFilter key_count p cleared)
    = Some (BloomFilter_new key_count p BFILTER_ENABLED).
Proof.
  cbv zeta.
  assert (Hnone : bFilter (clearFilter vb) = None ∧
                  tempFilter (clearFilter vb) = None).
  { unfold clearFilter. destruct (bFilter vb) eqn:Hmain,
      (tempFilter vb) eqn:Htemp; cbn; by rewrite ?Hmain, ?Htemp. }
  destruct Hnone as [Hmain Htemp].
  unfold maybeKeyExistsInFilter, addToFilter, getFilterSize,
    getNumOfKeysInFilter, createFilter.
  rewrite !Hmain, !Htemp. done.
Qed.

End Lifecycle.

Lemma compaction_installs_the_temp_filter_witness :
  bFilter
    (swapFilter
       (foldl (@add_during_compaction Sample.bloom)
          (@initTempFilter Sample.bloom 100 tt
             (Run.with_filters
                (Some {| status := BFILTER_ENABLED; bitArray := [true; true; true] |})
                None))
          [(true, "k1"); (false, "k2")]))
  = Some {| status := BFILTER_ENABLED; bitArray := [true; true] |}.
Proof.
  refine (proj1 (@compaction_installs_the_temp_filter Sample.bloom 100 tt
                   [(true, "k1"); (false, "k2")] _ _ _)); done.
Defined.

Lemma disabling_during_compaction_drops_filters_witness :
  bFilter
    (swapFilter
       (setFilterStatus BFILTER_DISABLED
          (@initTempFilter Sample.bloom 100 tt
             (Run.with_filters
                (Some {| status := BFILTER_ENABLED; bitArray := [true] |})
                None)))) = None.
Proof.
  refine (proj1 (@disabling_during_compaction_drops_filters Sample.bloom
                   100 tt BFILTER_DISABLED (λ _ _, false) "k" _ _ _));
    discriminate.
Defined.

End FilterLifecycle.

Module ReadFacts.
Import VBucket VBucketOps.

Section Reads.

Context `{!StoredValueOps}.


(** X25. [fetchValidValue] throws when the hash bucket lock is not held and
    never otherwise. With the lock held it returns NULL exactly when
    nothing was found, or when a live item has expired and deleted items
    were not asked for; a deleted, a temporary or an unexpired item comes
    back as it was found. *)
Theorem fetchValidValue_returns (lh : bool) (st : vbucket_state_t)
    (found : option StoredValue) (wantsDeleted queueExpired : bool) :
  (lh = false →
   fetchValidValue lh st found wantsDeleted queueExpired
     = Throws_logic_error) ∧
  (lh = true →
   ∃ r, fetchValidValue lh st found wantsDeleted queueExpired = Returns r ∧
        (returned r = None ↔
         found = None ∨
         (wantsDeleted = false ∧
          ∃ v, found = Some v ∧ isDeleted v = false ∧ isTempItem v = false ∧
               isExpired v = true)) ∧
        (∀ v, found = Some v →
              isDeleted v = true ∨ isTempItem v = true ∨ isExpired v = false →
              returned r = Some v)).
Proof.
  split; [by intros ->|]. intros ->. unfold fetchValidValue. cbn [negb].
  destruct found as [v|].
  2:{ eexists. split; [done|]. cbn. split; [|by intros v [=]].
      split; [by left|done]. }
  destruct (isDeleted v) eqn:Hd, (isTempItem v) eqn:Ht,
    (isExpired v) eqn:He; cbn [negb andb].
  all: try (eexists; split; [done|]; cbn; split;
            [split; [done|];
             intros [[=]|(_ & v' & [= <-] & ? & ? & ?)]; congruence
            |by intros v' [= <-]]).
  assert (Hlive : ∀ r : Fetched,
    returned r = (if wantsDeleted then returned r else None) →
    (wantsDeleted = true → is_Some (returned r)) →
    (returned r = None ↔
     Some v = None ∨
     (wantsDeleted = false ∧
      ∃ v0, Some v = Some v0 ∧ isDeleted v0 = false ∧
            isTempItem v0 = false ∧ isExpired v0 = true)) ∧
    (∀ v0, Some v = Some v0 →
           isDeleted v0 = true ∨ isTempItem v0 = true ∨ isExpired v0 = false →
           returned r = Some v0)).
  { intros r Hret Hsome. split.
    - split.
      + intros Hnone. right. split; [|by exists v].
        destruct wantsDeleted; [|done].
        destruct (Hsome eq_refl) as [? Hx]. congruence.
      + intros [[=]|[-> _]]. by rewrite Hret.
    - intros v0 [= <-] [?|[?|?]]; congruence. }
  destruct (bool_decide (st = vbucket_state_active)); cbn [negb];
    [destruct queueExpired; cbn [andb]|].
  all: eexists; (split; [done|]); apply Hlive; cbn;
    destruct wantsDeleted; try done; by intros _; eexists.
Qed.

Ltac told :=
  cbn; repeat split; intros; try simplify_eq; try done; try congruence;
  try (by left); try (by right; left); try (by right; right).

(** X26. What [completeBGFetchForSingleItem] reports to the waiting
    connection, when it does not throw: success, a temporary failure, or
    the status the storage gave. A metadata fetch that found no key reports
    success; a value that is already resident reports success whatever the
    storage said; when no stored value is left for a value fetch the
    storage status passes through; and under full eviction a missing key is
    reported only in that last case. *)
Theorem bgfetch_status_for_the_caller (eviction : item_eviction_policy_t)
    (metaDataOnly : bool) (status : ENGINE_ERROR_CODE) (fetchedValue : Item)
    (v : option StoredValue) (r : ENGINE_ERROR_CODE * option StoredValue) :
  completeBGFetchForSingleItem eviction metaDataOnly status fetchedValue v
    = Returns r →
  (r.1 = ENGINE_SUCCESS ∨ r.1 = ENGINE_TMPFAIL ∨ r.1 = status) ∧
  (metaDataOnly = true → status = ENGINE_KEY_ENOENT → r.1 = ENGINE_SUCCESS) ∧
  (∀ sv, metaDataOnly = false → v = Some sv → isResident sv = true →
         r = (ENGINE_SUCCESS, Some sv)) ∧
  (metaDataOnly = false → v = None → r = (status, None)) ∧
  (eviction = FULL_EVICTION → r.1 = ENGINE_KEY_ENOENT →
   metaDataOnly = false ∧ v = None ∧ status = ENGINE_KEY_ENOENT).
Proof.
  unfold completeBGFetchForSingleItem.
  destruct metaDataOnly.
  - destruct v as [sv|].
    + destruct (unlocked_restoreMeta fetchedValue status sv) as [restored sv'].
      destruct restored; cbn [orb]; [|case_bool_decide as Hs];
        intros [= <-]; told.
    + case_bool_decide as Hs; intros [= <-]; told.
  - destruct v as [sv|]; [|intros [= <-]; told].
    destruct (isResident sv) eqn:Hres; [intros [= <-]; told|].
    assert (Hrestore :
      match eviction with
      | VALUE_ONLY => negb false
      | FULL_EVICTION => isTempInitialItem sv || negb false
      end = true) by (destruct eviction; [done|apply orb_true_r]).
    rewrite Hrestore.
    case_bool_decide as Hok.
    + destruct (isResident (unlocked_restoreValue fetchedValue sv)); [|done].
      cbn [negb]. intros [= <-]. told.
    + case_bool_decide as Hmissing; [case_bool_decide as Hfull|];
        intros [= <-]; told.
Qed.

(** X27. [completeBGFetchForSingleItem] throws a logic error in one case
    only: a value fetch that succeeded on disk, for a stored value that was
    not resident, after whose [unlocked_restoreValue] the value is still
    not resident. *)
Theorem bgfetch_throws_only_on_failed_restore
    (eviction : item_eviction_policy_t) (metaDataOnly : bool)
    (status : ENGINE_ERROR_CODE) (fetchedValue : Item)
    (v : option StoredValue) :
  completeBGFetchForSingleItem eviction metaDataOnly status fetchedValue v
    = Throws_logic_error ↔
  metaDataOnly = false ∧ status = ENGINE_SUCCESS ∧
  ∃ sv, v = Some sv ∧ isResident sv = false ∧
        isResident (unlocked_restoreValue fetchedValue sv) = false.
Proof.
  unfold completeBGFetchForSingleItem.
  destruct metaDataOnly.
  - split; [|by intros [? _]].
    destruct v as [sv|].
    + destruct (unlocked_restoreMeta fetchedValue status sv) as [[] sv'];
        cbn [orb]; [done|]. by case_bool_decide.
    + by case_bool_decide.
  - destruct v as [sv|]; [|split; [done|by intros (_ & _ & ? & ? & _)]].
    destruct (isResident sv) eqn:Hres.
    + split; [done|]. intros (_ & _ & sv' & [= <-] & ? & _). congruence.
    + assert (Hrestore :
        match eviction with
        | VALUE_ONLY => negb false
        | FULL_EVICTION => isTempInitialItem sv || negb false
        end = true) by (destruct eviction; [done|apply orb_true_r]).
      rewrite Hrestore.
      case_bool_decide as Hok.
      * destruct (isResident (unlocked_restoreValue fetchedValue sv)) eqn:Hnow;
          cbn [negb].
        -- split; [done|]. intros (_ & _ & sv' & [= <-] & _ & ?). congruence.
        -- split; [intros _|done]. split; [done|]. split; [done|].
           by exists sv.
      * split; [|by intros (_ & ? & _)].
        case_bool_decide; [by case_bool_decide|done].
Qed.

End Reads.


Lemma bgfetch_status_for_the_caller_witness :
  @completeBGFetchForSingleItem Sample.stored_values FULL_EVICTION false
    ENGINE_KEY_ENOENT tt (Some Sample.evicted)
  = Returns (ENGINE_SUCCESS,
             Some (@setNonExistent Sample.stored_values Sample.evicted)) ∧
  ENGINE_SUCCESS ≠ ENGINE_KEY_ENOENT.
Proof.
  split; [reflexivity|].
  intros Hmissing.
  destruct (@bgfetch_status_for_the_caller Sample.stored_values FULL_EVICTION
              false ENGINE_KEY_ENOENT tt (Some Sample.evicted) _ eq_refl)
    as (_ & _ & _ & _ & Hfull).
  by destruct (Hfull eq_refl Hmissing) as (_ & ? & _).
Defined.

End ReadFacts.
